(** * Pawn structure and king safety of Fairy-Stockfish ([src/pawns.cpp])

    A shallow embedding of [evaluate<Us>], [Pawns::probe],
    [Entry::evaluate_shelter<Us>] and [Entry::do_king_safety<Us>], followed
    by the properties of the natural-language specification that were
    checked against them.

    Conventions.
    - A [Bitboard] is an unsigned machine word holding one bit per square; it
      is a non-negative [Z] and the C operators [&], [|], [^] are [Z.land],
      [Z.lor], [Z.lxor].  The complement [~] is taken inside the word
      ([bb_not]).
    - [Square], [File], [Rank], [Direction] are the integer enumerations of
      the engine ([RANK_1 = 0], [FILE_A = 0]).
    - C++ [int] division truncates toward zero: [Z.quot].
    - [bitboard.h], [position.h], [types.h] and [pawns.h] are not part of the
      sources at hand.  The geometric helpers of [bitboard.h] are the fields
      of the class [Geometry]; one instance, the plain 8x8 board, is given
      for evaluating the code on concrete positions. *)

From Stdlib Require Import ZArith List Bool Lia.
From stdpp Require Import base list.
Import ListNotations.

Local Open Scope Z_scope.

(** ** Enumerations and scalar types *)

Inductive Color : Type := WHITE | BLACK.

Inductive PieceType : Type := ALL_PIECES | PAWN | SHOGI_PAWN | KING.

Inductive CastlingSide : Type := KING_SIDE | QUEEN_SIDE.

Definition Bitboard := Z.
Definition Square := Z.
Definition File := Z.
Definition Rank := Z.
Definition Direction := Z.
Definition Key := Z.
Definition Value := Z.

Definition RANK_1 : Rank := 0.
Definition RANK_2 : Rank := 1.
Definition RANK_3 : Rank := 2.
Definition RANK_4 : Rank := 3.
Definition RANK_5 : Rank := 4.

Definition FILE_B : File := 1.
Definition FILE_D : File := 3.

Definition VALUE_ZERO : Value := 0.
Definition VALUE_INFINITE : Value := 32001.

(** [constexpr Color Them = (Us == WHITE ? BLACK : WHITE)] *)
Definition Them (Us : Color) : Color :=
  match Us with WHITE => BLACK | BLACK => WHITE end.

(** A two-element array indexed by [Color], as in [scores[COLOR_NB]]. *)
Record ByColor (A : Type) : Type := mkByColor { white : A; black : A }.
Arguments mkByColor {A} _ _.
Arguments white {A} _.
Arguments black {A} _.

Definition at_color {A : Type} (a : ByColor A) (c : Color) : A :=
  match c with WHITE => white a | BLACK => black a end.

Definition set_color {A : Type} (a : ByColor A) (c : Color) (x : A) : ByColor A :=
  match c with
  | WHITE => mkByColor x (black a)
  | BLACK => mkByColor (white a) x
  end.

(** ** Two-phase scores *)

(** Modelled from the spec: the type [Score] and its operators live in
    [types.h], which is not among the sources.  The spec describes a score as
    "a pair of integers: midgame value, endgame value"; the operators act on
    both components, and division by an [int] truncates like C++ division. *)
Record Score : Type := make_score { mg_value : Value; eg_value : Value }.
Arguments make_score (_ _)%_Z.

Definition SCORE_ZERO : Score := make_score 0 0.

Definition score_add (a b : Score) : Score :=
  make_score (mg_value a + mg_value b) (eg_value a + eg_value b).

Definition score_sub (a b : Score) : Score :=
  make_score (mg_value a - mg_value b) (eg_value a - eg_value b).

Definition score_mul (a : Score) (i : Z) : Score :=
  make_score (mg_value a * i) (eg_value a * i).

Definition score_div (a : Score) (i : Z) : Score :=
  make_score (Z.quot (mg_value a) i) (Z.quot (eg_value a) i).

Declare Scope score_scope.
Delimit Scope score_scope with S.
Bind Scope score_scope with Score.
Infix "+" := score_add : score_scope.
Infix "-" := score_sub : score_scope.
Infix "*" := score_mul : score_scope.
Infix "/" := score_div : score_scope.

(** Conversion of a C++ [bool] to [int]. *)
Definition b2z (b : bool) : Z := if b then 1 else 0.

(** ** Pawn penalties and tables (lines 34-62) *)

Definition Backward : Score := make_score 9 24.
Definition Doubled : Score := make_score 11 56.
Definition Isolated : Score := make_score 5 15.
Definition WeakLever : Score := make_score 0 56.
Definition WeakUnopposed : Score := make_score 13 27.

(** Reading of a statically initialised array: entries that the initialiser
    list does not give are zero. *)
Definition zth (l : list Z) (i : Z) : Z := nth (Z.to_nat i) l 0.

Definition Connected_tbl : list Z := [0; 7; 8; 12; 29; 48; 86].

Definition Connected (r : Rank) : Z := zth Connected_tbl r.

Definition ShelterStrength_tbl : list (list Z) :=
  [ [ -6; 81; 93; 58; 39; 18; 25 ];
    [ -43; 61; 35; -49; -29; -11; -63 ];
    [ -10; 75; 23; -2; 32; 3; -45 ];
    [ -39; -13; -29; -52; -48; -67; -166 ] ].

Definition UnblockedStorm_tbl : list (list Z) :=
  [ [ 89; -285; -185; 93; 57; 45; 51 ];
    [ 44; -18; 123; 46; 39; -7; 23 ];
    [ 4; 52; 162; 37; 7; -14; -2 ];
    [ -10; -14; 90; 15; 2; -7; -16 ] ].

Definition ShelterStrength (d : Z) (r : Rank) : Value :=
  zth (nth (Z.to_nat d) ShelterStrength_tbl []) r.

Definition UnblockedStorm (d : Z) (r : Rank) : Value :=
  zth (nth (Z.to_nat d) UnblockedStorm_tbl []) r.

(** ** Bitboards as machine words *)

(** Width of a [Bitboard] in the default build ([uint64_t]). *)
Definition BB_BITS : Z := 64.

(** [~b] on the word. *)
Definition bb_not (b : Bitboard) : Bitboard := Z.land (Z.lnot b) (Z.ones BB_BITS).

(** Conversion of a bitboard to [bool]: non-zero. *)
Definition nz (b : Bitboard) : bool := negb (b =? 0).

(** Indices of the set bits of a positive number, least significant first,
    the lowest bit having index [i]. *)
Fixpoint pos_bits (p : positive) (i : Z) : list Z :=
  match p with
  | xH => [i]
  | xO p' => pos_bits p' (i + 1)
  | xI p' => i :: pos_bits p' (i + 1)
  end.

(** Modelled from the spec: [pop_lsb] of [bitboard.h] removes and returns the
    least significant square of a bitboard.  [bb_squares b] lists the squares
    that repeated calls deliver until [b] is empty. *)
Definition bb_squares (b : Bitboard) : list Square :=
  match b with
  | Zpos p => pos_bits p 0
  | _ => []
  end.

(** Modelled from the spec: [popcount] of [bitboard.h], the number of squares
    in a bitboard. *)
Definition popcount (b : Bitboard) : Z := Z.of_nat (length (bb_squares b)).

(** ** The board query surface *)

(** The helpers of [bitboard.h] and [types.h] that [pawns.cpp] calls.  They
    are parameters of the development: every theorem below holds for any
    board geometry, the 8x8 board of [Std8] being one. *)
Class Geometry : Type := {
  SQ_NONE : Square;
  NORTH : Direction;
  SOUTH : Direction;
  is_ok : Square -> bool;
  square_bb : Square -> Bitboard;
  file_of : Square -> File;
  make_square : File -> Rank -> Square;
  relative_rank : Color -> Square -> Rank -> Rank;
  rank_bb : Square -> Bitboard;
  file_bb : File -> Bitboard;
  adjacent_files_bb : Square -> Bitboard;
  forward_ranks_bb : Color -> Square -> Bitboard;
  forward_file_bb : Color -> Square -> Bitboard;
  pawn_attack_span : Color -> Square -> Bitboard;
  passed_pawn_span : Color -> Square -> Bitboard;
  PseudoAttacks : Color -> PieceType -> Square -> Bitboard;
  shift : Direction -> Bitboard -> Bitboard;
  pawn_attacks_bb : Color -> Bitboard -> Bitboard;
  pawn_double_attacks_bb : Color -> Bitboard -> Bitboard;
  frontmost_sq : Color -> Bitboard -> Square;
  distance : Square -> Square -> Z
}.

(** Modelled from the spec: [Position] is declared in [position.h], which is
    not among the sources; the record holds what the "board query surface"
    of the spec exposes to this module.  [pieceList c pt] is the array
    returned by [squares<pt>(c)] up to its [SQ_NONE] terminator. *)
Record Position : Type := {
  pawn_key : Key;
  byTypeBB : PieceType -> Bitboard;
  byColorBB : Color -> Bitboard;
  pieceList : Color -> PieceType -> list Square;
  pieceCount : Color -> PieceType -> Z;
  board_bb : Bitboard;
  max_rank : Rank;
  max_file : File;
  captures_to_hand : bool;
  must_capture : bool;
  king_square : Color -> Square;
  castling_rights : Color -> Z;
  can_castle : Color -> CastlingSide -> bool;
  castling_kingside_file : File;
  castling_queenside_file : File
}.

(** [pos.pieces(c, pt)], [pos.pieces(pt)], [pos.pieces(pt1, pt2)] and
    [pos.pieces(c)]. *)
Definition pieces (pos : Position) (c : Color) (pt : PieceType) : Bitboard :=
  Z.land (byColorBB pos c) (byTypeBB pos pt).

Definition pieces_pt (pos : Position) (pt : PieceType) : Bitboard :=
  byTypeBB pos pt.

Definition pieces_pt2 (pos : Position) (pt1 pt2 : PieceType) : Bitboard :=
  Z.lor (byTypeBB pos pt1) (byTypeBB pos pt2).

Definition pieces_c (pos : Position) (c : Color) : Bitboard := byColorBB pos c.

(** ** Cache entries ([Pawns::Entry]) *)

(** Modelled from the spec: the struct is declared in [pawns.h]; the fields
    are the ones section 3 of the spec lists. *)
Record Entry : Type := mkEntry {
  key : Key;
  scores : ByColor Score;
  passedPawns : ByColor Bitboard;
  pawnAttacks : ByColor Bitboard;
  pawnAttacksSpan : ByColor Bitboard;
  kingSquares : ByColor Square;
  castlingRights : ByColor Z
}.

Definition set_key (e : Entry) (k : Key) : Entry :=
  mkEntry k (scores e) (passedPawns e) (pawnAttacks e) (pawnAttacksSpan e)
          (kingSquares e) (castlingRights e).

Definition set_scores (e : Entry) (c : Color) (s : Score) : Entry :=
  mkEntry (key e) (set_color (scores e) c s) (passedPawns e) (pawnAttacks e)
          (pawnAttacksSpan e) (kingSquares e) (castlingRights e).

Definition set_passedPawns (e : Entry) (c : Color) (b : Bitboard) : Entry :=
  mkEntry (key e) (scores e) (set_color (passedPawns e) c b) (pawnAttacks e)
          (pawnAttacksSpan e) (kingSquares e) (castlingRights e).

Definition set_pawnAttacks (e : Entry) (c : Color) (b : Bitboard) : Entry :=
  mkEntry (key e) (scores e) (passedPawns e) (set_color (pawnAttacks e) c b)
          (pawnAttacksSpan e) (kingSquares e) (castlingRights e).

Definition set_pawnAttacksSpan (e : Entry) (c : Color) (b : Bitboard) : Entry :=
  mkEntry (key e) (scores e) (passedPawns e) (pawnAttacks e)
          (set_color (pawnAttacksSpan e) c b) (kingSquares e)
          (castlingRights e).

Definition set_kingSquares (e : Entry) (c : Color) (s : Square) : Entry :=
  mkEntry (key e) (scores e) (passedPawns e) (pawnAttacks e)
          (pawnAttacksSpan e) (set_color (kingSquares e) c s)
          (castlingRights e).

Definition set_castlingRights (e : Entry) (c : Color) (r : Z) : Entry :=
  mkEntry (key e) (scores e) (passedPawns e) (pawnAttacks e)
          (pawnAttacksSpan e) (kingSquares e)
          (set_color (castlingRights e) c r).

(** A zero-initialised entry, as the table holds before its first use. *)
Definition zero_entry : Entry :=
  mkEntry 0 (mkByColor SCORE_ZERO SCORE_ZERO) (mkByColor 0 0) (mkByColor 0 0)
          (mkByColor 0 0) (mkByColor 0 0) (mkByColor 0 0).

#[export] Instance Entry_inhabited : Inhabited Entry := populate zero_entry.

(** ** [evaluate<Us>] (lines 67-177) *)

Section Evaluate.

Context `{G : Geometry}.
Variable pos : Position.
Variable Us : Color.

(** [constexpr Direction Up = (Us == WHITE ? NORTH : SOUTH)] *)
Definition Up : Direction :=
  match Us with WHITE => NORTH | BLACK => SOUTH end.

Definition ourPawns : Bitboard := pieces pos Us PAWN.
Definition theirPawns : Bitboard := pieces pos (Them Us) PAWN.

Definition doubleAttackThem : Bitboard :=
  pawn_double_attacks_bb (Them Us) theirPawns.

(** The flags of one pawn on square [s] (lines 94-106). *)
Definition rank_of_pawn (s : Square) : Rank :=
  relative_rank Us s (max_rank pos).

Definition opposed (s : Square) : bool :=
  nz (Z.land theirPawns (forward_file_bb Us s)).

Definition stoppers (s : Square) : Bitboard :=
  Z.land theirPawns (passed_pawn_span Us s).

Definition lever (s : Square) : Bitboard :=
  Z.land theirPawns (PseudoAttacks Us PAWN s).

Definition leverPush (s : Square) : Bitboard :=
  if RANK_1 <? relative_rank (Them Us) s (max_rank pos)
  then Z.land theirPawns (PseudoAttacks Us PAWN (s + Up))
  else 0.

Definition doubled (s : Square) : Bitboard :=
  if RANK_1 <? rank_of_pawn s
  then Z.land ourPawns (square_bb (s - Up))
  else 0.

Definition neighbours (s : Square) : Bitboard :=
  Z.land ourPawns (adjacent_files_bb s).

Definition phalanx (s : Square) : Bitboard :=
  Z.land (neighbours s) (rank_bb s).

Definition support (s : Square) : Bitboard :=
  if RANK_1 <? rank_of_pawn s
  then Z.land (neighbours s) (rank_bb (s - Up))
  else 0.

(** Lines 111-113. *)
Definition backward (s : Square) : bool :=
  negb (nz (Z.land (neighbours s) (forward_ranks_bb (Them Us) s)))
  && is_ok (s + Up)
  && nz (Z.land (stoppers s) (Z.lor (leverPush s) (square_bb (s + Up)))).

(** Lines 119-123. *)
Definition passed (s : Square) : bool :=
  negb (nz (Z.lxor (stoppers s) (lever s)))
  || (negb (nz (Z.lxor (stoppers s) (leverPush s)))
      && (popcount (leverPush s) <=? popcount (phalanx s)))
  || (is_ok (s + Up)
      && (stoppers s =? square_bb (s + Up))
      && (RANK_5 <=? rank_of_pawn s)
      && nz (Z.land (shift Up (support s))
                    (bb_not (Z.lor theirPawns doubleAttackThem)))).

(** Lines 133-136: the value [v] of a connected pawn. *)
Definition connected_v (s : Square) : Z :=
  let r := rank_of_pawn s in
  let v :=
    Z.quot (Connected r * (if nz (phalanx s) then 3 else 2)
                        * (if (r =? RANK_2) && captures_to_hand pos then 3 else 1))
           (if opposed s then 2 else 1)
    + 17 * popcount (support s) in
  if (RANK_4 <=? r)
     && (Z.quot (popcount (board_bb pos)) 4 <? pieceCount pos Us PAWN)
  then Z.quot (Z.max v (popcount (Z.lor (support s) (phalanx s)) * 50))
              (if opposed s then 2 else 1)
  else v.

(** Lines 131-147: the contribution of one pawn to [score]. *)
Definition score_pawn (score : Score) (s : Square) : Score :=
  let score1 :=
    if nz (Z.lor (support s) (phalanx s)) then
      let v := connected_v s in
      (score + make_score v (Z.quot (v * (rank_of_pawn s - 2)) 4))%S
    else if negb (nz (neighbours s)) then
      (score - (Isolated * (1 + 2 * b2z (must_capture pos))
                + WeakUnopposed * b2z (negb (opposed s))))%S
    else if backward s then
      (score - (Backward + WeakUnopposed * b2z (negb (opposed s))))%S
    else score in
  if nz (doubled s) && negb (nz (support s))
  then (score1 - Doubled)%S
  else score1.

(** One iteration of the loop of lines 90-148. *)
Definition pawn_step (st : Score * Entry) (s : Square) : Score * Entry :=
  let '(score, e) := st in
  let e1 := set_pawnAttacksSpan e Us
              (Z.lor (at_color (pawnAttacksSpan e) Us) (pawn_attack_span Us s)) in
  let e2 := if passed s && is_ok (s + Up)
            then set_passedPawns e1 Us
                   (Z.lor (at_color (passedPawns e1) Us) (square_bb s))
            else e1 in
  (score_pawn score s, e2).

(** Lines 85-87. *)
Definition reset_entry (e : Entry) : Entry :=
  let e1 := set_pawnAttacksSpan e Us 0 in
  let e2 := set_passedPawns e1 Us 0 in
  let e3 := set_kingSquares e2 Us SQ_NONE in
  set_pawnAttacks e3 Us (pawn_attacks_bb Us ourPawns).

Definition pawn_loop (e : Entry) : Score * Entry :=
  fold_left pawn_step (pieceList pos Us PAWN) (SCORE_ZERO, reset_entry e).

(** Lines 151-153: the pawns charged with [WeakLever]. *)
Definition weak_lever_bb (e : Entry) : Bitboard :=
  Z.land (Z.land ourPawns doubleAttackThem)
         (bb_not (Z.lor (at_color (pawnAttacks e) Us)
                        (at_color (passedPawns e) Us))).

(** Lines 157-158. *)
Definition double_if_bare (score : Score) : Score :=
  if pieceCount pos Us ALL_PIECES =? pieceCount pos Us PAWN
  then (score * 2)%S
  else score.

(** Lines 160-174: the loop over the shogi pawns. *)
Definition shogi_step (score : Score) (s : Square) : Score :=
  let neighbours := Z.land (pieces pos Us SHOGI_PAWN) (adjacent_files_bb s) in
  if negb (nz neighbours) then (score - Isolated / 2)%S else score.

Definition evaluate (e : Entry) : Score * Entry :=
  let '(score, e1) := pawn_loop e in
  let score1 := (score - WeakLever * popcount (weak_lever_bb e1))%S in
  let score2 := double_if_bare score1 in
  (fold_left shogi_step (pieceList pos Us SHOGI_PAWN) score2, e1).

End Evaluate.

(** ** [Pawns::probe] (lines 188-201) *)

(** Modelled from the spec: the pawn hash table of a thread and its
    [operator[]] are declared in [misc.h] and [thread.h], which are not among
    the sources.  The spec makes the table a flat array of entries and has a
    key address the slot [key mod table size]. *)
Abbreviation Table := (list Entry).

Definition slot_of (tbl : Table) (k : Key) : nat :=
  Z.to_nat (k mod Z.of_nat (length tbl)).

(** The calls of [evaluate] that a probe performs, in order.  The log is a
    ghost of the model: it makes "recomputation" observable. *)
Inductive Work : Type := Evaluated (c : Color).

(** [probe] returns a pointer into the table: the table after the call, the
    slot pointed to and, for convenience, the entry stored there. *)
Record Probed : Type := mkProbed {
  work : list Work;
  table : Table;
  slot : nat;
  entry : Entry
}.

Section Probe.

Context `{G : Geometry}.
Variable pos : Position.

(** Lines 196-198. *)
Definition recompute (e : Entry) : Entry :=
  let e1 := set_key e (pawn_key pos) in
  let '(sw, e2) := evaluate pos WHITE e1 in
  let e3 := set_scores e2 WHITE sw in
  let '(sb, e4) := evaluate pos BLACK e3 in
  set_scores e4 BLACK sb.

(** The test of line 193. *)
Definition is_hit (e : Entry) : bool :=
  (key e =? pawn_key pos) && negb (nz (pieces_pt pos SHOGI_PAWN)).

Definition probe (tbl : Table) : Probed :=
  let k := pawn_key pos in
  let i := slot_of tbl k in
  let e := tbl !!! i in
  if is_hit e
  then mkProbed [] tbl i e
  else
    let e' := recompute e in
    mkProbed [Evaluated WHITE; Evaluated BLACK] (<[i := e']> tbl) i e'.

End Probe.

(** ** [Entry::evaluate_shelter<Us>] (lines 207-238) *)

(** Modelled from the spec: [clamp] is not defined in [pawns.cpp]; the spec
    uses it as the usual clamping of a value into [lo .. hi]. *)
Definition clamp (v lo hi : Z) : Z :=
  if v <? lo then lo else if hi <? v then hi else v.

Section KingSafety.

Context `{G : Geometry}.
Variable pos : Position.
Variable Us : Color.

(** Line 212. *)
Definition shelter_pawns (ksq : Square) : Bitboard :=
  Z.land (pieces_pt2 pos PAWN SHOGI_PAWN)
         (bb_not (forward_ranks_bb (Them Us) ksq)).

(** Lines 222 and 225: the rank of the pawn on a file, [RANK_1] if none. *)
Definition shelter_rank (b : Bitboard) : Rank :=
  if nz b
  then relative_rank Us (frontmost_sq (Them Us) b) (max_rank pos)
  else RANK_1.

(** Line 227. *)
Definition shelter_d (f : File) : Z :=
  Z.min (Z.min f (max_file pos - f)) FILE_D.

(** Lines 221-233: the body of the loop over the three files. *)
Definition shelter_file (ourP theirP : Bitboard) (bonus : Score) (f : File)
  : Score :=
  let ourRank := shelter_rank (Z.land ourP (file_bb f)) in
  let theirRank := shelter_rank (Z.land theirP (file_bb f)) in
  let d := shelter_d f in
  let bonus1 :=
    (bonus + make_score (ShelterStrength d ourRank) 0
             * (1 + b2z (captures_to_hand pos && (ourRank <=? RANK_2))))%S in
  if negb (ourRank =? 0) && (ourRank =? theirRank - 1)
  then (bonus1 - make_score (82 * b2z (theirRank =? RANK_3))
                            (82 * b2z (theirRank =? RANK_3)))%S
  else (bonus1 - make_score (UnblockedStorm d theirRank) 0)%S.

(** Line 218. *)
Definition shelter_center (ksq : Square) : File :=
  clamp (file_of ksq) FILE_B (max_file pos - 1).

(** The three files of the loop of line 219. *)
Definition shelter_files (ksq : Square) : list File :=
  let center := shelter_center ksq in
  [center - 1; center; center + 1].

Definition shelter_bonus (ksq : Square) : Score :=
  let b := shelter_pawns ksq in
  let ourP := Z.land b (pieces_c pos Us) in
  let theirP := Z.land b (pieces_c pos (Them Us)) in
  fold_left (shelter_file ourP theirP) (shelter_files ksq) (make_score 5 5).

(** The reference parameter [shelter] is threaded through. *)
Definition evaluate_shelter (ksq : Square) (shelter : Score) : Score :=
  let bonus := shelter_bonus ksq in
  if mg_value shelter <? mg_value bonus then bonus else shelter.

(** ** [Entry::do_king_safety<Us>] (lines 244-277) *)

(** Lines 251-258.  The [while] loop pops the squares of [pawns] one by
    one. *)
Definition min_pawn_dist (ksq : Square) : Z :=
  let pawns := pieces pos Us PAWN in
  let minPawnDist := if nz pawns then 8 else 0 in
  if nz (Z.land pawns (PseudoAttacks Us KING ksq))
  then 1
  else fold_left (fun m s => Z.min m (distance ksq s))
                 (bb_squares pawns) minPawnDist.

(** [Us == WHITE ? RANK_1 : pos.max_rank()] *)
Definition castling_rank : Rank :=
  match Us with WHITE => RANK_1 | BLACK => max_rank pos end.

(** Lines 260-274. *)
Definition best_shelter (ksq : Square) : Score :=
  let shelter0 := make_score (- VALUE_INFINITE) VALUE_ZERO in
  let shelter1 := evaluate_shelter ksq shelter0 in
  let shelter2 :=
    if can_castle pos Us KING_SIDE
    then evaluate_shelter
           (make_square (castling_kingside_file pos) castling_rank) shelter1
    else shelter1 in
  if can_castle pos Us QUEEN_SIDE
  then evaluate_shelter
         (make_square (castling_queenside_file pos) castling_rank) shelter2
  else shelter2.

Definition do_king_safety (e : Entry) : Score * Entry :=
  let ksq := king_square pos Us in
  let e1 := set_kingSquares e Us ksq in
  let e2 := set_castlingRights e1 Us (castling_rights pos Us) in
  ((best_shelter ksq - make_score VALUE_ZERO (16 * min_pawn_dist ksq))%S, e2).

(** Modelled from the spec: the inline caller [Entry::king_safety] of
    [pawns.h] is not among the sources.  The spec has it recompute king
    safety only when the king square or the castling rights stored in the
    entry differ from the position's; this is its test. *)
Definition king_safety_is_current (e : Entry) : bool :=
  (at_color (kingSquares e) Us =? king_square pos Us)
  && (at_color (castlingRights e) Us =? castling_rights pos Us).

End KingSafety.

(** ** The plain 8x8 board *)

(** Modelled from the spec: the helpers of [bitboard.h] for a board of eight
    files and eight ranks, squares numbered [a1 = 0], [b1 = 1], ...,
    [h8 = 63], following the spec's glossary (forward means toward the
    opponent, a lever is an enemy pawn able to capture the pawn, and so
    on).  The instance serves to run the code on positions. *)
Module Std8.

Definition FileABB : Bitboard := 72340172838076673.
Definition FileHBB : Bitboard := Z.shiftl FileABB 7.
Definition Rank1BB : Bitboard := 255.

Definition word (b : Z) : Bitboard := Z.land b (Z.ones BB_BITS).

Definition rank_of (s : Square) : Rank := Z.shiftr s 3.
Definition file_of (s : Square) : File := Z.land s 7.
Definition make_square (f : File) (r : Rank) : Square := Z.shiftl r 3 + f.

Definition is_ok (s : Square) : bool := (0 <=? s) && (s <=? 63).

Definition square_bb (s : Square) : Bitboard :=
  if is_ok s then Z.shiftl 1 s else 0.

Definition rank_bb (s : Square) : Bitboard :=
  Z.shiftl Rank1BB (8 * rank_of s).

Definition file_bb (f : File) : Bitboard :=
  if (0 <=? f) && (f <=? 7) then Z.shiftl FileABB f else 0.

Definition shift (d : Direction) (b : Bitboard) : Bitboard :=
  if d =? 8 then word (Z.shiftl b 8)
  else if d =? -8 then Z.shiftr b 8
  else if d =? 1 then word (Z.shiftl (Z.land b (bb_not FileHBB)) 1)
  else if d =? -1 then Z.shiftr (Z.land b (bb_not FileABB)) 1
  else if d =? 9 then word (Z.shiftl (Z.land b (bb_not FileHBB)) 9)
  else if d =? 7 then word (Z.shiftl (Z.land b (bb_not FileABB)) 7)
  else if d =? -7 then Z.shiftr (Z.land b (bb_not FileHBB)) 7
  else if d =? -9 then Z.shiftr (Z.land b (bb_not FileABB)) 9
  else 0.

Definition adjacent_files_bb (s : Square) : Bitboard :=
  let f := file_bb (file_of s) in
  Z.lor (shift 1 f) (shift (-1) f).

Definition relative_rank (c : Color) (s : Square) (maxRank : Rank) : Rank :=
  match c with
  | WHITE => rank_of s
  | BLACK => maxRank - rank_of s
  end.

(** All squares on the ranks in front of [s], seen from [c]. *)
Definition forward_ranks_bb (c : Color) (s : Square) : Bitboard :=
  match c with
  | WHITE => word (Z.shiftl (bb_not Rank1BB) (8 * rank_of s))
  | BLACK => Z.shiftr (bb_not (Z.shiftl Rank1BB 56)) (8 * (7 - rank_of s))
  end.

Definition forward_file_bb (c : Color) (s : Square) : Bitboard :=
  Z.land (forward_ranks_bb c s) (file_bb (file_of s)).

Definition pawn_attack_span (c : Color) (s : Square) : Bitboard :=
  Z.land (forward_ranks_bb c s) (adjacent_files_bb s).

Definition passed_pawn_span (c : Color) (s : Square) : Bitboard :=
  Z.lor (forward_file_bb c s) (pawn_attack_span c s).

Definition pawn_attacks_bb (c : Color) (b : Bitboard) : Bitboard :=
  match c with
  | WHITE => Z.lor (shift 7 b) (shift 9 b)
  | BLACK => Z.lor (shift (-9) b) (shift (-7) b)
  end.

Definition pawn_double_attacks_bb (c : Color) (b : Bitboard) : Bitboard :=
  match c with
  | WHITE => Z.land (shift 7 b) (shift 9 b)
  | BLACK => Z.land (shift (-9) b) (shift (-7) b)
  end.

Definition king_attacks (s : Square) : Bitboard :=
  let b := square_bb s in
  fold_right (fun d acc => Z.lor (shift d b) acc) 0
             [8; -8; 1; -1; 9; 7; -7; -9].

Definition PseudoAttacks (c : Color) (pt : PieceType) (s : Square) : Bitboard :=
  match pt with
  | PAWN => pawn_attacks_bb c (square_bb s)
  | KING => king_attacks s
  | _ => 0
  end.

(** The most advanced square of [b] seen from [c]; [b] is not empty. *)
Definition frontmost_sq (c : Color) (b : Bitboard) : Square :=
  match c with
  | WHITE => Z.log2 b
  | BLACK => hd 0 (bb_squares b)
  end.

Definition distance (x y : Square) : Z :=
  Z.max (Z.abs (file_of x - file_of y)) (Z.abs (rank_of x - rank_of y)).

#[export] Instance geometry : Geometry :=
  Build_Geometry 64 8 (-8) is_ok square_bb file_of make_square relative_rank
                 rank_bb file_bb adjacent_files_bb forward_ranks_bb
                 forward_file_bb pawn_attack_span passed_pawn_span
                 PseudoAttacks shift pawn_attacks_bb pawn_double_attacks_bb
                 frontmost_sq distance.

(** Squares by file letter and rank digit. *)
Definition sq (f r : Z) : Square := make_square f (r - 1).
Definition fa : File := 0.
Definition fb : File := 1.
Definition fc : File := 2.
Definition fd : File := 3.
Definition fe : File := 4.
Definition ff : File := 5.
Definition fg : File := 6.
Definition fh : File := 7.

Definition bb_of (l : list Square) : Bitboard :=
  fold_right (fun s b => Z.lor (square_bb s) b) 0 l.

(** A position of kings and pawns on the 8x8 board, without castling
    rights and without variant rules. *)
Definition kp_position (k : Key) (wk bk : Square) (wp bp : list Square)
  : Position := {|
  pawn_key := k;
  byTypeBB := fun pt =>
    match pt with
    | ALL_PIECES => Z.lor (bb_of (wk :: wp)) (bb_of (bk :: bp))
    | PAWN => Z.lor (bb_of wp) (bb_of bp)
    | SHOGI_PAWN => 0
    | KING => bb_of [wk; bk]
    end;
  byColorBB := fun c =>
    match c with WHITE => bb_of (wk :: wp) | BLACK => bb_of (bk :: bp) end;
  pieceList := fun c pt =>
    match pt, c with
    | PAWN, WHITE => wp
    | PAWN, BLACK => bp
    | KING, WHITE => [wk]
    | KING, BLACK => [bk]
    | _, _ => []
    end;
  pieceCount := fun c pt =>
    match pt, c with
    | PAWN, WHITE => Z.of_nat (length wp)
    | PAWN, BLACK => Z.of_nat (length bp)
    | KING, _ => 1
    | ALL_PIECES, WHITE => Z.of_nat (length wp) + 1
    | ALL_PIECES, BLACK => Z.of_nat (length bp) + 1
    | SHOGI_PAWN, _ => 0
    end;
  board_bb := Z.ones 64;
  max_rank := 7;
  max_file := 7;
  captures_to_hand := false;
  must_capture := false;
  king_square := fun c => match c with WHITE => wk | BLACK => bk end;
  castling_rights := fun _ => 0;
  can_castle := fun _ _ => false;
  castling_kingside_file := fg;
  castling_queenside_file := fc
|}.

End Std8.

(** ** What the spec says, where it is compared with the code

    The definitions of this section follow the wording of the spec, not the
    source.  They are used only to state where the two differ. *)

Section SpecReadings.

Context `{G : Geometry}.
Variable pos : Position.
Variable Us : Color.

(** Spec 4.3: "the minimum distance from the king to any own pawn (1 if a
    pawn is already king-adjacent; 8 - no pawns sentinel - if the side has
    none)". *)
Definition spec_min_pawn_dist (ksq : Square) : Z :=
  let pawns := pieces pos Us PAWN in
  if nz pawns
  then if nz (Z.land pawns (PseudoAttacks Us KING ksq))
       then 1
       else fold_left (fun m s => Z.min m (distance ksq s)) (bb_squares pawns) 8
  else 8.

(** Spec 4.3: "d = file distance from the king's file, clamped to a maximum
    index of 3". *)
Definition spec_shelter_d (ksq : Square) (f : File) : Z :=
  Z.min (Z.abs (f - file_of ksq)) 3.

(** Spec 4.2, step 5: [WeakLever] is subtracted "once per own pawn that is
    (a) hit twice by enemy pawns, (b) not itself attacking anything, and
    (c) not already flagged passed".  "Attacking anything" is read as
    attacking an enemy pawn, the only pieces this module looks at. *)
Definition spec_weak_lever_pawn (e : Entry) (s : Square) : bool :=
  nz (Z.land (doubleAttackThem pos Us) (square_bb s))
  && negb (nz (Z.land (PseudoAttacks Us PAWN s) (theirPawns pos Us)))
  && negb (nz (Z.land (at_color (passedPawns e) Us) (square_bb s))).

Definition spec_weak_lever_count (e : Entry) : Z :=
  Z.of_nat (length (List.filter (spec_weak_lever_pawn e)
                                (pieceList pos Us PAWN))).

(** Spec 4.2, step 3 (c): "advancing the support pawns lands on squares not
    controlled or doubly-attacked by the enemy": no square reached by a
    support pawn is held by an enemy pawn or attacked twice. *)
Definition spec_passed (s : Square) : bool :=
  negb (nz (Z.land (stoppers pos Us s) (bb_not (lever pos Us s))))
  || ((stoppers pos Us s =? leverPush pos Us s)
      && (popcount (leverPush pos Us s) <=? popcount (phalanx pos Us s)))
  || ((stoppers pos Us s =? square_bb (s + Up Us))
      && is_ok (s + Up Us)
      && (RANK_5 <=? rank_of_pawn pos Us s)
      && negb (nz (Z.land (shift (Up Us) (support pos Us s))
                          (Z.lor (theirPawns pos Us) (doubleAttackThem pos Us))))).

(** Spec 4.2, step 4, with the relative rank counted from 1 as the spec
    does ("Connected ... indexed by relative rank 1..7"): the endgame
    value is "bonus x (relativeRank - 2) / 4". *)
Definition spec_connected_eg (s : Square) : Z :=
  let relativeRank := rank_of_pawn pos Us s + 1 in
  Z.quot (connected_v pos Us s * (relativeRank - 2)) 4.

(** Spec 4.2, step 2: backward iff "no own neighbour pawn is strictly
    ahead", the forward square is on-board and the stoppers intersect
    leverPush or the forward square. *)
Definition spec_backward (s : Square) : bool :=
  negb (nz (Z.land (neighbours pos Us s) (forward_ranks_bb Us s)))
  && is_ok (s + Up Us)
  && nz (Z.land (stoppers pos Us s)
                (Z.lor (leverPush pos Us s) (square_bb (s + Up Us)))).

End SpecReadings.

(** ** The branch taken for a pawn (lines 131-147) *)

Section Branches.

Context `{G : Geometry}.
Variable pos : Position.
Variable Us : Color.

(** The conditions under which each arm of the [if]/[else if] chain runs. *)
Definition connected_applies (s : Square) : bool :=
  nz (Z.lor (support pos Us s) (phalanx pos Us s)).

Definition isolated_applies (s : Square) : bool :=
  negb (connected_applies s) && negb (nz (neighbours pos Us s)).

Definition backward_applies (s : Square) : bool :=
  negb (connected_applies s) && nz (neighbours pos Us s) && backward pos Us s.

Definition none_applies (s : Square) : bool :=
  negb (connected_applies s) && nz (neighbours pos Us s)
  && negb (backward pos Us s).

(** The condition of line 146. *)
Definition doubled_applies (s : Square) : bool :=
  nz (doubled pos Us s) && negb (nz (support pos Us s)).

Definition connected_term (s : Square) : Score :=
  let v := connected_v pos Us s in
  make_score v (Z.quot (v * (rank_of_pawn pos Us s - 2)) 4).

Definition isolated_term (s : Square) : Score :=
  (Isolated * (1 + 2 * b2z (must_capture pos))
   + WeakUnopposed * b2z (negb (opposed pos Us s)))%S.

Definition backward_term (s : Square) : Score :=
  (Backward + WeakUnopposed * b2z (negb (opposed pos Us s)))%S.

(** The bitboard of passed pawns and the attack span that the loop builds
    up over a list of pawn squares. *)
Definition passed_bb (pl : list Square) : Bitboard :=
  fold_left (fun b s => if passed pos Us s && is_ok (s + Up Us)
                        then Z.lor b (square_bb s) else b) pl 0.

Definition span_bb (pl : list Square) : Bitboard :=
  fold_left (fun b s => Z.lor b (pawn_attack_span Us s)) pl 0.

(** An entry whose passed pawns and attack span of [Us] are [pp] and
    [span]. *)
Definition loop_entry (e : Entry) (pp span : Bitboard) : Entry :=
  mkEntry (key e) (scores e) (set_color (passedPawns e) Us pp)
          (pawnAttacks e) (set_color (pawnAttacksSpan e) Us span)
          (kingSquares e) (castlingRights e).

(** The score returned by [evaluate], which does not read the entry. *)
Definition pawn_score : Score :=
  let pl := pieceList pos Us PAWN in
  let b := Z.land (Z.land (ourPawns pos Us) (doubleAttackThem pos Us))
                  (bb_not (Z.lor (pawn_attacks_bb Us (ourPawns pos Us))
                                 (passed_bb pl))) in
  fold_left (shogi_step pos Us) (pieceList pos Us SHOGI_PAWN)
    (double_if_bare pos Us
       (fold_left (score_pawn pos Us) pl SCORE_ZERO - WeakLever * popcount b)%S).

End Branches.

(** ** The entry that [evaluate] and [probe] leave behind *)

Section Computed.

Context `{G : Geometry}.
Variable pos : Position.

(** The entry after [evaluate<Us>]: the fields of [Us] are overwritten,
    the others are kept. *)
Definition evaluated_entry (Us : Color) (e : Entry) : Entry :=
  let pl := pieceList pos Us PAWN in
  mkEntry (key e) (scores e)
          (set_color (passedPawns e) Us (passed_bb pos Us pl))
          (set_color (pawnAttacks e) Us (pawn_attacks_bb Us (ourPawns pos Us)))
          (set_color (pawnAttacksSpan e) Us (span_bb Us pl))
          (set_color (kingSquares e) Us SQ_NONE)
          (castlingRights e).

(** The entry after the miss path of [probe]; only the castling rights of
    the previous occupant of the slot survive. *)
Definition computed_entry (cr : ByColor Z) : Entry :=
  let wp := pieceList pos WHITE PAWN in
  let bp := pieceList pos BLACK PAWN in
  mkEntry (pawn_key pos)
          (mkByColor (pawn_score pos WHITE) (pawn_score pos BLACK))
          (mkByColor (passed_bb pos WHITE wp) (passed_bb pos BLACK bp))
          (mkByColor (pawn_attacks_bb WHITE (ourPawns pos WHITE))
                     (pawn_attacks_bb BLACK (ourPawns pos BLACK)))
          (mkByColor (span_bb WHITE wp) (span_bb BLACK bp))
          (mkByColor SQ_NONE SQ_NONE)
          cr.

End Computed.

(** ** Positions used as examples *)

Module Examples.
Import Std8.

Definition SQ_E1 : Square := sq fe 1.
Definition SQ_E2 : Square := sq fe 2.
Definition SQ_E3 : Square := sq fe 3.
Definition SQ_D4 : Square := sq fd 4.
Definition SQ_F4 : Square := sq ff 4.
Definition SQ_E4 : Square := sq fe 4.
Definition SQ_D5 : Square := sq fd 5.
Definition SQ_E5 : Square := sq fe 5.
Definition SQ_F5 : Square := sq ff 5.
Definition SQ_E6 : Square := sq fe 6.
Definition SQ_E8 : Square := sq fe 8.

(** White Ke1, pawn e4; Black Ke8, pawns d5, f5, e6. *)
Definition levered : Position :=
  kp_position 1 SQ_E1 SQ_E8 [SQ_E4] [SQ_D5; SQ_F5; SQ_E6].

(** White Ke1, pawns e3, e4, d4; Black Ke8 and no pawn. *)
Definition doubled_phalanx : Position :=
  kp_position 2 SQ_E1 SQ_E8 [SQ_E3; SQ_E4; SQ_D4] [].

(** White Ke1, pawns e5, d4, f4; Black Ke8, pawns e6, d5. *)
Definition blocked_lever : Position :=
  kp_position 3 SQ_E1 SQ_E8 [SQ_E5; SQ_D4; SQ_F4] [SQ_E6; SQ_D5].

(** White Ke1, pawns e3, d4; Black Ke8, pawn d5. *)
Definition held_back : Position :=
  kp_position 4 SQ_E1 SQ_E8 [SQ_E3; SQ_D4] [SQ_D5].

(** White Ke1, pawns e3, e4; Black Ke8 and no pawn. *)
Definition doubled_alone : Position :=
  kp_position 6 SQ_E1 SQ_E8 [SQ_E3; SQ_E4] [].

(** White Ke1, pawns e2, e3, d4; Black Ke8, pawn d5. *)
Definition doubled_held_back : Position :=
  kp_position 7 SQ_E1 SQ_E8 [SQ_E2; SQ_E3; SQ_D4] [SQ_D5].

(** The pawns and kings of the initial position of chess. *)
Definition initial : Position :=
  kp_position 5 SQ_E1 SQ_E8
              (map (fun f => sq f 2) [0; 1; 2; 3; 4; 5; 6; 7])
              (map (fun f => sq f 7) [0; 1; 2; 3; 4; 5; 6; 7]).

(** A table of four zeroed slots. *)
Definition fresh_table : Table := replicate 4 zero_entry.

End Examples.

(** ** Positions that differ in their piece lists only *)

(** The position [pos] with other piece lists: the bitboards, counts and
    flags are those of [pos].  The engine keeps the squares of a piece list
    in an order that depends on the moves played. *)
Definition with_piece_lists (pos : Position)
           (pl : Color -> PieceType -> list Square) : Position := {|
  pawn_key := pawn_key pos;
  byTypeBB := byTypeBB pos;
  byColorBB := byColorBB pos;
  pieceList := pl;
  pieceCount := pieceCount pos;
  board_bb := board_bb pos;
  max_rank := max_rank pos;
  max_file := max_file pos;
  captures_to_hand := captures_to_hand pos;
  must_capture := must_capture pos;
  king_square := king_square pos;
  castling_rights := castling_rights pos;
  can_castle := can_castle pos;
  castling_kingside_file := castling_kingside_file pos;
  castling_queenside_file := castling_queenside_file pos
|}.

Section Counts.

Context `{G : Geometry}.
Variable pos : Position.
Variable Us : Color.

(** The test of line 172 for a shogi pawn on [s]. *)
Definition shogi_isolated (s : Square) : bool :=
  negb (nz (Z.land (pieces pos Us SHOGI_PAWN) (adjacent_files_bb s))).

(** The test of lines 230-231 for file [f]: an own pawn directly behind an
    enemy pawn that stands on [RANK_3]. *)
Definition shelter_blocked_on_rank3 (ourP theirP : Bitboard) (f : File) : bool :=
  let ourRank := shelter_rank pos Us (Z.land ourP (file_bb f)) in
  let theirRank := shelter_rank pos Us (Z.land theirP (file_bb f)) in
  negb (ourRank =? 0) && (ourRank =? theirRank - 1) && (theirRank =? RANK_3).

(** The squares the king may stand on when [do_king_safety] looks for the
    best shelter (lines 261-274). *)
Definition shelter_candidates : list Square :=
  king_square pos Us
  :: (if can_castle pos Us KING_SIDE
      then [make_square (castling_kingside_file pos) (castling_rank pos Us)]
      else [])
  ++ (if can_castle pos Us QUEEN_SIDE
      then [make_square (castling_queenside_file pos) (castling_rank pos Us)]
      else []).

End Counts.

(** * Properties *)

(** ** Bits of a bitboard *)

Lemma testbit_bb_not (b : Bitboard) (q : Z) :
  0 <= q ->
  Z.testbit (bb_not b) q = negb (Z.testbit b q) && (q <? BB_BITS).
Proof.
  intros Hq. unfold bb_not.
  rewrite Z.land_spec, Z.lnot_spec by assumption.
  rewrite Z.testbit_ones by (unfold BB_BITS; lia).
  replace (0 <=? q) with true by (symmetry; apply Z.leb_le; assumption).
  reflexivity.
Qed.

Lemma bb_not_nonneg (b : Bitboard) : 0 <= bb_not b.
Proof.
  unfold bb_not. apply Z.land_nonneg. right.
  unfold BB_BITS. rewrite Z.ones_equiv. apply Z.lt_le_pred.
  apply Z.pow_pos_nonneg; lia.
Qed.

Lemma nz_true (b : Bitboard) : nz b = true <-> b <> 0.
Proof.
  unfold nz. rewrite negb_true_iff, Z.eqb_neq. reflexivity.
Qed.

Lemma nz_false (b : Bitboard) : nz b = false <-> b = 0.
Proof.
  unfold nz. rewrite negb_false_iff, Z.eqb_eq. reflexivity.
Qed.

(** A word is zero exactly when none of its bits is set. *)
Lemma zero_bits (b : Z) :
  b = 0 <-> forall q, 0 <= q -> Z.testbit b q = false.
Proof.
  split.
  - intros -> q _. apply Z.bits_0.
  - intros Hb. apply Z.bits_inj'. intros q Hq.
    rewrite Z.bits_0. apply Hb. assumption.
Qed.

(** A non-zero word has a set bit. *)
Lemma nz_bit (b : Z) :
  nz b = true <-> exists q, 0 <= q /\ Z.testbit b q = true.
Proof.
  rewrite nz_true. split.
  - intros Hb.
    destruct (Z.lt_trichotomy b 0) as [Hneg | [H0 | Hpos]].
    + destruct (proj1 (Z.bits_iff_neg_ex b) Hneg) as [k Hk].
      exists (Z.max 0 (k + 1)). split; [lia |]. apply Hk. lia.
    + contradiction.
    + exists (Z.log2 b). split; [apply Z.log2_nonneg |].
      apply Z.bit_log2. assumption.
  - intros [q [Hq Hbit]] ->. rewrite Z.bits_0 in Hbit. discriminate.
Qed.

Lemma in_pos_bits (p : positive) :
  forall i s, In s (pos_bits p i) <-> i <= s /\ Z.testbit (Zpos p) (s - i) = true.
Proof.
  induction p as [p IH | p IH |]; intros i s; simpl pos_bits.
  - change (Zpos p~1) with (2 * Zpos p + 1). simpl In. rewrite IH. split.
    + intros [<- | [Hle Hbit]].
      * split; [lia |]. rewrite Z.sub_diag. apply Z.testbit_odd_0.
      * split; [lia |].
        replace (s - i) with (Z.succ (s - (i + 1))) by lia.
        rewrite Z.testbit_odd_succ by lia. assumption.
    + intros [Hle Hbit].
      destruct (Z.eq_dec i s) as [-> | Hne]; [left; reflexivity | right].
      split; [lia |].
      replace (s - i) with (Z.succ (s - (i + 1))) in Hbit by lia.
      rewrite Z.testbit_odd_succ in Hbit by lia. assumption.
  - change (Zpos p~0) with (2 * Zpos p). rewrite IH. split.
    + intros [Hle Hbit]. split; [lia |].
      replace (s - i) with (Z.succ (s - (i + 1))) by lia.
      rewrite Z.testbit_even_succ by lia. assumption.
    + intros [Hle Hbit].
      destruct (Z.eq_dec i s) as [-> | Hne].
      * rewrite Z.sub_diag, Z.testbit_even_0 in Hbit. discriminate.
      * split; [lia |].
        replace (s - i) with (Z.succ (s - (i + 1))) in Hbit by lia.
        rewrite Z.testbit_even_succ in Hbit by lia. assumption.
  - simpl In. split.
    + intros [<- | []]. split; [lia |]. rewrite Z.sub_diag. reflexivity.
    + intros [Hle Hbit].
      destruct (Z.eq_dec i s) as [-> | Hne]; [left; reflexivity | exfalso].
      replace (s - i) with (Z.succ (s - (i + 1))) in Hbit by lia.
      change 1 with (2 * 0 + 1) in Hbit.
      rewrite Z.testbit_odd_succ, Z.bits_0 in Hbit by lia. discriminate.
Qed.

Lemma NoDup_pos_bits (p : positive) : forall i, NoDup (pos_bits p i).
Proof.
  induction p as [p IH | p IH |]; intros i; simpl pos_bits.
  - constructor; [| apply IH].
    rewrite list_elem_of_In, in_pos_bits. lia.
  - apply IH.
  - constructor; [| constructor]. rewrite list_elem_of_In. simpl. tauto.
Qed.

(** The squares enumerated from a bitboard are its set bits, each once. *)
Lemma in_bb_squares (b : Bitboard) (s : Square) :
  0 <= b -> (In s (bb_squares b) <-> 0 <= s /\ Z.testbit b s = true).
Proof.
  intros Hb. destruct b as [| p | p]; simpl bb_squares.
  - rewrite Z.bits_0. simpl. split; [tauto | intros [_ H]; discriminate].
  - rewrite in_pos_bits, Z.sub_0_r. reflexivity.
  - lia.
Qed.

Lemma NoDup_bb_squares (b : Bitboard) : NoDup (bb_squares b).
Proof.
  destruct b; simpl; [constructor | apply NoDup_pos_bits | constructor].
Qed.

(** ** The loop over the pawns *)

Lemma at_set_color {A : Type} (a : ByColor A) (c : Color) (x : A) :
  at_color (set_color a c x) c = x.
Proof. destruct c; reflexivity. Qed.

Lemma set_set_color {A : Type} (a : ByColor A) (c : Color) (x y : A) :
  set_color (set_color a c x) c y = set_color a c y.
Proof. destruct c; reflexivity. Qed.

Section LoopFacts.

Context `{G : Geometry}.
Variable pos : Position.
Variable Us : Color.

Lemma pawn_step_loop_entry (sc : Score) (e : Entry) (pp span : Bitboard)
      (s : Square) :
  pawn_step pos Us (sc, loop_entry Us e pp span) s =
  (score_pawn pos Us sc s,
   loop_entry Us e
     (if passed pos Us s && is_ok (s + Up Us)
      then Z.lor pp (square_bb s) else pp)
     (Z.lor span (pawn_attack_span Us s))).
Proof.
  unfold pawn_step, loop_entry, set_pawnAttacksSpan, set_passedPawns.
  cbn [key scores passedPawns pawnAttacks pawnAttacksSpan kingSquares
       castlingRights].
  rewrite !at_set_color.
  destruct (passed pos Us s && is_ok (s + Up Us));
    cbn [key scores passedPawns pawnAttacks pawnAttacksSpan kingSquares
         castlingRights];
    rewrite ?at_set_color, ?set_set_color; reflexivity.
Qed.

Lemma fold_pawn_step (pl : list Square) :
  forall sc e pp span,
    fold_left (pawn_step pos Us) pl (sc, loop_entry Us e pp span) =
    (fold_left (score_pawn pos Us) pl sc,
     loop_entry Us e
       (fold_left (fun b s => if passed pos Us s && is_ok (s + Up Us)
                              then Z.lor b (square_bb s) else b) pl pp)
       (fold_left (fun b s => Z.lor b (pawn_attack_span Us s)) pl span)).
Proof.
  induction pl as [| s pl IH]; intros sc e pp span; cbn [fold_left].
  - reflexivity.
  - rewrite pawn_step_loop_entry. apply IH.
Qed.

Lemma pawn_loop_eq (e : Entry) :
  pawn_loop pos Us e =
  (fold_left (score_pawn pos Us) (pieceList pos Us PAWN) SCORE_ZERO,
   evaluated_entry pos Us e).
Proof.
  unfold pawn_loop.
  change (reset_entry pos Us e)
    with (loop_entry Us
            (set_pawnAttacks (set_kingSquares e Us SQ_NONE) Us
                             (pawn_attacks_bb Us (ourPawns pos Us))) 0 0).
  rewrite fold_pawn_step. reflexivity.
Qed.

(** [evaluate] returns a score that depends on the position alone and
    overwrites the fields of [Us] in the entry. *)
Lemma evaluate_eq (e : Entry) :
  evaluate pos Us e = (pawn_score pos Us, evaluated_entry pos Us e).
Proof.
  unfold evaluate. rewrite pawn_loop_eq.
  unfold pawn_score, weak_lever_bb, evaluated_entry.
  cbn [pawnAttacks passedPawns]. rewrite !at_set_color. reflexivity.
Qed.

End LoopFacts.

Lemma recompute_eq `{G : Geometry} (pos : Position) (e : Entry) :
  recompute pos e = computed_entry pos (castlingRights e).
Proof.
  unfold recompute. rewrite !evaluate_eq. reflexivity.
Qed.

(** ** The pawn hash table *)

Lemma is_hit_iff `{G : Geometry} (pos : Position) (e : Entry) :
  is_hit pos e = true <-> key e = pawn_key pos /\ pieces_pt pos SHOGI_PAWN = 0.
Proof.
  unfold is_hit. rewrite andb_true_iff, Z.eqb_eq, negb_true_iff, nz_false.
  reflexivity.
Qed.

Lemma slot_of_insert (tbl : Table) (i : nat) (e : Entry) (k : Key) :
  slot_of (<[i := e]> tbl) k = slot_of tbl k.
Proof. unfold slot_of. rewrite length_insert. reflexivity. Qed.

Lemma probe_hit `{G : Geometry} (pos : Position) (tbl : Table) :
  is_hit pos (tbl !!! slot_of tbl (pawn_key pos)) = true ->
  probe pos tbl =
  mkProbed [] tbl (slot_of tbl (pawn_key pos))
           (tbl !!! slot_of tbl (pawn_key pos)).
Proof. intros Hhit. unfold probe. rewrite Hhit. reflexivity. Qed.

Lemma probe_miss `{G : Geometry} (pos : Position) (tbl : Table) :
  is_hit pos (tbl !!! slot_of tbl (pawn_key pos)) = false ->
  probe pos tbl =
  mkProbed [Evaluated WHITE; Evaluated BLACK]
           (<[slot_of tbl (pawn_key pos) :=
                recompute pos (tbl !!! slot_of tbl (pawn_key pos))]> tbl)
           (slot_of tbl (pawn_key pos))
           (recompute pos (tbl !!! slot_of tbl (pawn_key pos))).
Proof. intros Hhit. unfold probe. rewrite Hhit. reflexivity. Qed.

(** C1: [probe] returns an entry whose key is the pawn key of the position.
    It returns the entry of slot [key mod size] without evaluating anything
    exactly when that entry already stores the key and the position has no
    shogi pawn; in every other case it evaluates White then Black, stores key
    and scores in the slot and returns it, so that an entry found under
    another key comes back with the scores of the probed position. *)
Theorem probe_hit_or_recompute `{G : Geometry} (pos : Position) (tbl : Table) :
  let e0 := tbl !!! slot_of tbl (pawn_key pos) in
  let r := probe pos tbl in
  key (entry r) = pawn_key pos
  /\ slot r = slot_of tbl (pawn_key pos)
  /\ (work r = [] <-> key e0 = pawn_key pos /\ pieces_pt pos SHOGI_PAWN = 0)
  /\ (work r = [] -> table r = tbl /\ entry r = e0)
  /\ (work r <> [] ->
      work r = [Evaluated WHITE; Evaluated BLACK]
      /\ table r = <[slot r := entry r]> tbl
      /\ entry r = recompute pos e0
      /\ forall c e, at_color (scores (entry r)) c = fst (evaluate pos c e))
  /\ (key e0 <> pawn_key pos ->
      forall c e, at_color (scores (entry r)) c = fst (evaluate pos c e)).
Proof.
  intros e0 r.
  assert (Hfresh : forall c e,
             at_color (scores (recompute pos e0)) c = fst (evaluate pos c e)).
  { intros c e. rewrite recompute_eq, evaluate_eq. destruct c; reflexivity. }
  subst r. unfold probe. fold e0.
  destruct (is_hit pos e0) eqn:Hhit; cbn [work table slot entry].
  - apply is_hit_iff in Hhit. destruct Hhit as [Hkey Hshogi].
    repeat split; auto; try congruence.
  - assert (Hmiss : ~ (key e0 = pawn_key pos /\ pieces_pt pos SHOGI_PAWN = 0)).
    { rewrite <- is_hit_iff. congruence. }
    repeat split; auto; try discriminate; try tauto.
    rewrite recompute_eq. reflexivity.
Qed.

(** C9: probing an unchanged position twice in succession yields the same
    entry both times, hence the same scores, passed pawns, pawn attacks and
    attack spans; this also holds when shogi pawns make both calls
    recompute. *)
Theorem probe_twice_same_entry `{G : Geometry} (pos : Position) (tbl : Table) :
  let r1 := probe pos tbl in
  let r2 := probe pos (table r1) in
  entry r2 = entry r1
  /\ scores (entry r2) = scores (entry r1)
  /\ passedPawns (entry r2) = passedPawns (entry r1)
  /\ pawnAttacks (entry r2) = pawnAttacks (entry r1)
  /\ pawnAttacksSpan (entry r2) = pawnAttacksSpan (entry r1)
  /\ slot r2 = slot r1
  /\ table r2 = table r1
  /\ (pieces_pt pos SHOGI_PAWN <> 0 ->
      work r1 = [Evaluated WHITE; Evaluated BLACK]
      /\ work r2 = [Evaluated WHITE; Evaluated BLACK]).
Proof.
  intros r1 r2.
  assert (Hsoft : pieces_pt pos SHOGI_PAWN <> 0 ->
                  forall t, work (probe pos t) = [Evaluated WHITE; Evaluated BLACK]).
  { intros Hs t. unfold probe.
    destruct (is_hit pos _) eqn:Hhit; [| reflexivity].
    apply is_hit_iff in Hhit. tauto. }
  assert (Hsame : entry r2 = entry r1 /\ slot r2 = slot r1 /\ table r2 = table r1).
  { subst r2 r1.
    destruct (is_hit pos (tbl !!! slot_of tbl (pawn_key pos))) eqn:Hhit.
    - rewrite (probe_hit pos tbl Hhit). cbn [table entry slot].
      rewrite (probe_hit pos tbl Hhit). cbn [table entry slot]. auto.
    - rewrite (probe_miss pos tbl Hhit). cbn [table entry slot].
      set (i := slot_of tbl (pawn_key pos)) in *.
      set (e' := recompute pos (tbl !!! i)).
      destruct (Nat.lt_ge_cases i (length tbl)) as [Hlt | Hge].
      + assert (Hlook : <[i := e']> tbl !!! slot_of (<[i := e']> tbl) (pawn_key pos)
                        = e').
        { rewrite slot_of_insert. fold i.
          apply list_lookup_total_insert_eq. assumption. }
        destruct (is_hit pos e') eqn:Hhit'.
        * rewrite probe_hit by (rewrite Hlook; assumption).
          cbn [table entry slot]. rewrite Hlook, slot_of_insert. auto.
        * rewrite probe_miss by (rewrite Hlook; assumption).
          cbn [table entry slot]. rewrite Hlook, slot_of_insert. fold i.
          assert (He : recompute pos e' = e').
          { subst e'. rewrite !recompute_eq. reflexivity. }
          rewrite He, list_insert_insert_eq. auto.
      + rewrite (list_insert_ge tbl i e') by assumption.
        rewrite (probe_miss pos tbl Hhit). cbn [table entry slot]. fold i e'.
        rewrite (list_insert_ge tbl i e') by assumption. auto. }
  destruct Hsame as [He [Hs Ht]].
  rewrite He.
  split; [reflexivity |]. split; [reflexivity |]. split; [reflexivity |].
  split; [reflexivity |]. split; [reflexivity |]. split; [exact Hs |].
  split; [exact Ht |].
  intros Hshogi. split; [subst r1 | subst r2]; apply Hsoft; exact Hshogi.
Qed.

(** C10: when [probe] recomputes an entry (the slot holds another key, or
    the position has shogi pawns), the king squares of both colours are the
    sentinel [SQ_NONE] in the entry it returns; the caller's test "stored
    king square and castling rights equal the position's" is then false for
    every king standing on a square. *)
Theorem recompute_resets_king_squares `{G : Geometry} (pos : Position)
        (tbl : Table) :
  key (tbl !!! slot_of tbl (pawn_key pos)) <> pawn_key pos
  \/ pieces_pt pos SHOGI_PAWN <> 0 ->
  let e := entry (probe pos tbl) in
  at_color (kingSquares e) WHITE = SQ_NONE
  /\ at_color (kingSquares e) BLACK = SQ_NONE
  /\ forall Us, king_square pos Us <> SQ_NONE ->
                king_safety_is_current pos Us e = false.
Proof.
  intros Hmiss e.
  assert (He : e = computed_entry pos
                     (castlingRights (tbl !!! slot_of tbl (pawn_key pos)))).
  { subst e. unfold probe.
    destruct (is_hit pos _) eqn:Hhit.
    - apply is_hit_iff in Hhit. tauto.
    - cbn [entry]. apply recompute_eq. }
  rewrite He. split; [reflexivity | split; [reflexivity |]].
  intros Us Hking. unfold king_safety_is_current.
  apply andb_false_iff. left. apply Z.eqb_neq.
  destruct Us; cbn; congruence.
Qed.

(** ** The score of one pawn *)

Lemma score_eq (a b : Score) :
  mg_value a = mg_value b -> eg_value a = eg_value b -> a = b.
Proof. destruct a, b. simpl. intros -> ->. reflexivity. Qed.

Lemma nz_lor (a b : Bitboard) :
  nz (Z.lor a b) = true <-> a <> 0 \/ b <> 0.
Proof.
  rewrite nz_true, Z.lor_eq_0_iff.
  destruct (Z.eq_dec a 0), (Z.eq_dec b 0); tauto.
Qed.

Ltac score_arith :=
  apply score_eq;
  unfold score_add, score_sub, score_mul, SCORE_ZERO;
  cbn [mg_value eg_value]; lia.

Section PawnFacts.

Context `{G : Geometry}.
Variable pos : Position.
Variable Us : Color.

(** A pawn without neighbours has neither support nor phalanx. *)
Lemma no_neighbours_not_connected (s : Square) :
  neighbours pos Us s = 0 -> connected_applies pos Us s = false.
Proof.
  intros Hn. unfold connected_applies, support, phalanx. rewrite Hn.
  destruct (RANK_1 <? rank_of_pawn pos Us s); reflexivity.
Qed.

Lemma score_pawn_cases (score : Score) (s : Square) :
  score_pawn pos Us score s =
  ((if connected_applies pos Us s then score + connected_term pos Us s
    else if isolated_applies pos Us s then score - isolated_term pos Us s
    else if backward_applies pos Us s then score - backward_term pos Us s
    else score)
   - (if doubled_applies pos Us s then Doubled else SCORE_ZERO))%S.
Proof.
  unfold score_pawn, isolated_applies, backward_applies, doubled_applies.
  fold (connected_applies pos Us s).
  fold (connected_term pos Us s) (isolated_term pos Us s) (backward_term pos Us s).
  destruct (connected_applies pos Us s); cbn [negb andb];
    destruct (nz (neighbours pos Us s)); cbn [negb andb];
      destruct (backward pos Us s);
        destruct (nz (doubled pos Us s) && negb (nz (support pos Us s)));
          try reflexivity; score_arith.
Qed.

End PawnFacts.

(** C5 (as the code has it): for every pawn exactly one of the four arms
    runs (connected bonus, isolated penalty, backward penalty, nothing); the
    isolated arm is the one of the pawns without neighbours.  [Doubled] is
    subtracted on top exactly when the pawn is doubled and has no support;
    with the connected bonus this happens exactly for a doubled pawn that
    stands in a phalanx without support, and never for a supported pawn. *)
Theorem pawn_arms_exclusive `{G : Geometry} (pos : Position) (Us : Color)
        (score : Score) (s : Square) :
  let c := connected_applies pos Us s in
  let i := isolated_applies pos Us s in
  let b := backward_applies pos Us s in
  let n := none_applies pos Us s in
  let d := doubled_applies pos Us s in
  b2z c + b2z i + b2z b + b2z n = 1
  /\ (i = true <-> neighbours pos Us s = 0)
  /\ score_pawn pos Us score s =
     ((score + connected_term pos Us s * b2z c
             - isolated_term pos Us s * b2z i
             - backward_term pos Us s * b2z b)
      - Doubled * b2z d)%S
  /\ (d = true <-> doubled pos Us s <> 0 /\ support pos Us s = 0)
  /\ (c && d = true <->
      doubled pos Us s <> 0 /\ support pos Us s = 0 /\ phalanx pos Us s <> 0)
  /\ (support pos Us s <> 0 -> d = false).
Proof.
  intros c i b n d.
  assert (Hd : d = true <-> doubled pos Us s <> 0 /\ support pos Us s = 0).
  { subst d. unfold doubled_applies.
    rewrite andb_true_iff, negb_true_iff, nz_true, nz_false. reflexivity. }
  assert (Hc : c = true <-> support pos Us s <> 0 \/ phalanx pos Us s <> 0).
  { subst c. unfold connected_applies. apply nz_lor. }
  split; [| split; [| split; [| split; [exact Hd | split]]]].
  - subst c i b n.
    unfold isolated_applies, backward_applies, none_applies.
    destruct (connected_applies pos Us s), (nz (neighbours pos Us s)),
      (backward pos Us s); reflexivity.
  - subst i. unfold isolated_applies. rewrite andb_true_iff, !negb_true_iff.
    rewrite nz_false. split; [tauto |].
    intros Hn. split; [| exact Hn].
    apply no_neighbours_not_connected. exact Hn.
  - rewrite score_pawn_cases. subst c i b d.
    unfold isolated_applies, backward_applies.
    destruct (connected_applies pos Us s); cbn [negb andb];
      destruct (nz (neighbours pos Us s)); cbn [negb andb];
        destruct (backward pos Us s);
          destruct (doubled_applies pos Us s);
            unfold b2z; score_arith.
  - rewrite andb_true_iff, Hc, Hd.
    destruct (Z.eq_dec (support pos Us s) 0); tauto.
  - intros Hs. destruct d; [| reflexivity].
    destruct (proj1 Hd eq_refl) as [_ H0]. contradiction.
Qed.

(** C7 (as the code has it): for a pawn with support or phalanx, the bonus
    is [Connected[r]] times 3 (phalanx) or 2, times 3 on [RANK_2] under
    captures-to-hand, halved when opposed, plus 17 per supporting pawn; from
    [RANK_4] on, when the side has more pawns than a quarter of the board's
    squares, it is raised to at least 50 per supporting or phalanx pawn and
    then halved when opposed.  The midgame value is the bonus; the endgame
    value is [bonus * (r - 2) / 4] for the zero-based rank index [r], that
    is [bonus * (relativeRank - 3) / 4] when ranks are counted from 1. *)
Theorem connected_bonus `{G : Geometry} (pos : Position) (Us : Color)
        (score : Score) (s : Square) :
  support pos Us s <> 0 \/ phalanx pos Us s <> 0 ->
  let r := rank_of_pawn pos Us s in
  let relativeRank := r + 1 in
  let halve x := if opposed pos Us s then Z.quot x 2 else x in
  let base :=
    halve (Connected r
           * (if Z.eq_dec (phalanx pos Us s) 0 then 2 else 3)
           * (if (r =? RANK_2) && captures_to_hand pos then 3 else 1))
    + 17 * popcount (support pos Us s) in
  let crowded :=
    (RANK_4 <=? r) && (popcount (board_bb pos) <? 4 * pieceCount pos Us PAWN) in
  let bonus :=
    if crowded
    then halve (Z.max base
                      (50 * popcount (Z.lor (support pos Us s) (phalanx pos Us s))))
    else base in
  score_pawn pos Us score s =
  ((score + make_score bonus (Z.quot (bonus * (relativeRank - 3)) 4))
   - Doubled * b2z (doubled_applies pos Us s))%S.
Proof.
  intros Hconn r relativeRank halve base crowded bonus.
  assert (Hc : connected_applies pos Us s = true).
  { unfold connected_applies. apply nz_lor. exact Hconn. }
  assert (Hv : connected_v pos Us s = bonus).
  { unfold connected_v. fold r. subst bonus crowded base halve. cbv beta.
    assert (Hq : (Z.quot (popcount (board_bb pos)) 4 <? pieceCount pos Us PAWN)
                 = (popcount (board_bb pos) <? 4 * pieceCount pos Us PAWN)).
    { assert (Hp : 0 <= popcount (board_bb pos)) by (unfold popcount; lia).
      pose proof (Z.quot_rem' (popcount (board_bb pos)) 4) as Hqr.
      pose proof (Z.rem_bound_pos (popcount (board_bb pos)) 4 Hp) as Hrem.
      destruct (Z.ltb_spec (Z.quot (popcount (board_bb pos)) 4)
                           (pieceCount pos Us PAWN));
        destruct (Z.ltb_spec (popcount (board_bb pos))
                             (4 * pieceCount pos Us PAWN)); lia. }
    rewrite Hq, (Z.mul_comm _ 50).
    assert (Hph : (if nz (phalanx pos Us s) then 3 else 2)
                  = (if Z.eq_dec (phalanx pos Us s) 0 then 2 else 3)).
    { unfold nz. destruct (Z.eq_dec (phalanx pos Us s) 0) as [-> | Hne].
      - reflexivity.
      - apply Z.eqb_neq in Hne. rewrite Hne. reflexivity. }
    rewrite Hph.
    destruct (opposed pos Us s); rewrite ?Z.quot_1_r; reflexivity. }
  rewrite score_pawn_cases, Hc. unfold connected_term. rewrite Hv.
  subst relativeRank. replace (r + 1 - 3) with (r - 2) by lia. fold r.
  destruct (doubled_applies pos Us s); unfold b2z; score_arith.
Qed.

(** C8 (as the code has it): a pawn is backward iff no own pawn on an
    adjacent file stands on a rank behind it, its forward square is on the
    board, and some stopper is in [leverPush] or on the forward square. *)
Theorem backward_iff `{G : Geometry} (pos : Position) (Us : Color) (s : Square) :
  backward pos Us s = true <->
  (forall q, 0 <= q ->
             Z.testbit (ourPawns pos Us) q = true ->
             Z.testbit (adjacent_files_bb s) q = true ->
             Z.testbit (forward_ranks_bb (Them Us) s) q = false)
  /\ is_ok (s + Up Us) = true
  /\ exists q, 0 <= q
               /\ Z.testbit (stoppers pos Us s) q = true
               /\ (Z.testbit (leverPush pos Us s) q = true
                   \/ Z.testbit (square_bb (s + Up Us)) q = true).
Proof.
  unfold backward. rewrite !andb_true_iff, negb_true_iff, nz_false, nz_bit.
  rewrite zero_bits. unfold neighbours.
  split.
  - intros [[Hbehind Hok] [q [Hq Hbit]]].
    split; [| split; [exact Hok |]].
    + intros p Hp Hour Hadj. specialize (Hbehind p Hp).
      rewrite !Z.land_spec, Hour, Hadj in Hbehind. exact Hbehind.
    + exists q. split; [exact Hq |].
      rewrite Z.land_spec, Z.lor_spec in Hbit.
      apply andb_true_iff in Hbit. destruct Hbit as [Hst Hor].
      apply orb_true_iff in Hor. auto.
  - intros [Hbehind [Hok [q [Hq [Hst Hor]]]]].
    split; [split; [| exact Hok] |].
    + intros p Hp. rewrite !Z.land_spec.
      destruct (Z.testbit (ourPawns pos Us) p) eqn:Hour; [| reflexivity].
      destruct (Z.testbit (adjacent_files_bb s) p) eqn:Hadj; [| reflexivity].
      cbn [andb]. apply Hbehind; assumption.
    + exists q. split; [exact Hq |].
      rewrite Z.land_spec, Z.lor_spec, Hst. cbn [andb].
      apply orb_true_iff. exact Hor.
Qed.

(** ** Passed pawns *)

Lemma land_sub_bits (a b : Z) :
  Z.land a b = a ->
  forall q, Z.testbit a q = true -> Z.testbit b q = true.
Proof.
  intros Hab q Ha. rewrite <- Hab, Z.land_spec in Ha.
  apply andb_true_iff in Ha. tauto.
Qed.

(** C6 (as the code has it): on a board where the squares a pawn attacks lie
    in its passed-pawn span, a pawn is passed iff (a) every stopper is a
    lever, or (b) the stoppers are exactly the leverPush pawns and the
    phalanx has at least as many pawns, or (c) the forward square is on the
    board and holds the only stopper, the pawn is on [RANK_5] or beyond, and
    at least one support pawn can step onto a square that holds no enemy
    pawn and is not attacked by two enemy pawns.  The loop records the
    pawn's square in [passedPawns] exactly when it is passed and its forward
    square is on the board. *)
Theorem passed_iff `{G : Geometry} (pos : Position) (Us : Color) (s : Square) :
  Z.land (PseudoAttacks Us PAWN s) (passed_pawn_span Us s)
  = PseudoAttacks Us PAWN s ->
  (passed pos Us s = true <->
   (forall q, 0 <= q -> Z.testbit (stoppers pos Us s) q = true ->
              Z.testbit (lever pos Us s) q = true)
   \/ (stoppers pos Us s = leverPush pos Us s
       /\ popcount (leverPush pos Us s) <= popcount (phalanx pos Us s))
   \/ (is_ok (s + Up Us) = true
       /\ stoppers pos Us s = square_bb (s + Up Us)
       /\ RANK_5 <= rank_of_pawn pos Us s
       /\ exists q, 0 <= q < BB_BITS
                    /\ Z.testbit (shift (Up Us) (support pos Us s)) q = true
                    /\ Z.testbit (theirPawns pos Us) q = false
                    /\ Z.testbit (doubleAttackThem pos Us) q = false))
  /\ (forall score e,
        at_color (passedPawns (snd (pawn_step pos Us (score, e) s))) Us =
        if passed pos Us s && is_ok (s + Up Us)
        then Z.lor (at_color (passedPawns e) Us) (square_bb s)
        else at_color (passedPawns e) Us).
Proof.
  intros Hatt. split.
  - assert (Ha : negb (nz (Z.lxor (stoppers pos Us s) (lever pos Us s))) = true
                 <-> (forall q, 0 <= q ->
                                Z.testbit (stoppers pos Us s) q = true ->
                                Z.testbit (lever pos Us s) q = true)).
    { rewrite negb_true_iff, nz_false, Z.lxor_eq_0_iff. split.
      - intros Heq q _ Hst. rewrite <- Heq. exact Hst.
      - intros Hsub. apply Z.bits_inj'. intros q Hq.
        destruct (Z.testbit (stoppers pos Us s) q) eqn:Hst.
        + symmetry. apply Hsub; assumption.
        + destruct (Z.testbit (lever pos Us s) q) eqn:Hlev; [| reflexivity].
          unfold lever in Hlev. unfold stoppers in Hst.
          rewrite Z.land_spec in Hlev, Hst.
          apply andb_true_iff in Hlev. destruct Hlev as [Hth Hpa].
          rewrite Hth, (land_sub_bits _ _ Hatt q Hpa) in Hst. discriminate. }
    assert (Hb : negb (nz (Z.lxor (stoppers pos Us s) (leverPush pos Us s)))
                 && (popcount (leverPush pos Us s) <=? popcount (phalanx pos Us s))
                 = true
                 <-> stoppers pos Us s = leverPush pos Us s
                     /\ popcount (leverPush pos Us s) <= popcount (phalanx pos Us s)).
    { rewrite andb_true_iff, negb_true_iff, nz_false, Z.lxor_eq_0_iff, Z.leb_le.
      reflexivity. }
    assert (Hfree : nz (Z.land (shift (Up Us) (support pos Us s))
                               (bb_not (Z.lor (theirPawns pos Us)
                                              (doubleAttackThem pos Us)))) = true
                    <-> exists q, 0 <= q < BB_BITS
                          /\ Z.testbit (shift (Up Us) (support pos Us s)) q = true
                          /\ Z.testbit (theirPawns pos Us) q = false
                          /\ Z.testbit (doubleAttackThem pos Us) q = false).
    { rewrite nz_bit. split.
      - intros [q [Hq Hbit]]. exists q.
        rewrite Z.land_spec, testbit_bb_not, Z.lor_spec in Hbit by assumption.
        apply andb_true_iff in Hbit. destruct Hbit as [Hsh Hrest].
        apply andb_true_iff in Hrest. destruct Hrest as [Hno Hlt].
        apply negb_true_iff, orb_false_iff in Hno.
        apply Z.ltb_lt in Hlt. tauto.
      - intros [q [[Hq Hlt] [Hsh [Hth Hda]]]]. exists q. split; [exact Hq |].
        rewrite Z.land_spec, testbit_bb_not, Z.lor_spec by assumption.
        rewrite Hsh, Hth, Hda. cbn [andb orb negb].
        apply Z.ltb_lt. exact Hlt. }
    unfold passed. rewrite !orb_true_iff, Ha, Hb.
    rewrite !andb_true_iff, Z.eqb_eq, Z.leb_le, Hfree. tauto.
  - intros score e. unfold pawn_step.
    destruct (passed pos Us s && is_ok (s + Up Us)).
    + unfold set_passedPawns. cbn [snd passedPawns].
      rewrite at_set_color. reflexivity.
    + reflexivity.
Qed.

(** ** The penalty after the loop *)

(** C4 (as the code has it): after the loop over the pawns, [evaluate]
    subtracts [WeakLever] once for each square that holds an own pawn, is
    attacked by two enemy pawns, is not attacked by an own pawn and is not
    recorded in [passedPawns]. *)
Theorem weak_lever_charged `{G : Geometry} (pos : Position) (Us : Color)
        (e : Entry) :
  let e1 := snd (pawn_loop pos Us e) in
  let charged := bb_squares (weak_lever_bb pos Us e1) in
  fst (evaluate pos Us e) =
  fold_left (shogi_step pos Us) (pieceList pos Us SHOGI_PAWN)
    (double_if_bare pos Us
       (fst (pawn_loop pos Us e) - WeakLever * Z.of_nat (length charged))%S)
  /\ NoDup charged
  /\ (forall s, In s charged <->
        0 <= s < BB_BITS
        /\ Z.testbit (ourPawns pos Us) s = true
        /\ Z.testbit (doubleAttackThem pos Us) s = true
        /\ Z.testbit (pawn_attacks_bb Us (ourPawns pos Us)) s = false
        /\ Z.testbit (at_color (passedPawns e1) Us) s = false)
  /\ at_color (pawnAttacks e1) Us = pawn_attacks_bb Us (ourPawns pos Us)
  /\ at_color (passedPawns e1) Us = passed_bb pos Us (pieceList pos Us PAWN).
Proof.
  intros e1 charged.
  assert (He1 : e1 = evaluated_entry pos Us e).
  { subst e1. rewrite pawn_loop_eq. reflexivity. }
  assert (Hatt : at_color (pawnAttacks e1) Us = pawn_attacks_bb Us (ourPawns pos Us)).
  { rewrite He1. unfold evaluated_entry. cbn [pawnAttacks].
    apply at_set_color. }
  split; [| split; [| split; [| split]]].
  - unfold evaluate. subst charged e1.
    destruct (pawn_loop pos Us e) as [sc e1]. reflexivity.
  - apply NoDup_bb_squares.
  - intros s. subst charged. rewrite in_bb_squares.
    + unfold weak_lever_bb. rewrite Hatt. split.
      * intros [Hs Hbit].
        rewrite !Z.land_spec, testbit_bb_not, Z.lor_spec in Hbit by assumption.
        apply andb_true_iff in Hbit. destruct Hbit as [Hod Hrest].
        apply andb_true_iff in Hod. destruct Hod as [Hour Hdbl].
        apply andb_true_iff in Hrest. destruct Hrest as [Hno Hlt].
        apply negb_true_iff, orb_false_iff in Hno.
        apply Z.ltb_lt in Hlt. tauto.
      * intros [[Hs Hlt] [Hour [Hdbl [Hna Hnp]]]]. split; [exact Hs |].
        rewrite !Z.land_spec, testbit_bb_not, Z.lor_spec by assumption.
        rewrite Hour, Hdbl, Hna, Hnp. cbn [andb orb negb].
        apply Z.ltb_lt. exact Hlt.
    + unfold weak_lever_bb. apply Z.land_nonneg. right. apply bb_not_nonneg.
  - exact Hatt.
  - rewrite He1. unfold evaluated_entry. cbn [passedPawns].
    apply at_set_color.
Qed.

(** ** King shelter and king safety *)

Lemma evaluate_shelter_cases `{G : Geometry} (pos : Position) (Us : Color)
      (ksq : Square) (shelter : Score) :
  (evaluate_shelter pos Us ksq shelter = shelter
   \/ evaluate_shelter pos Us ksq shelter = shelter_bonus pos Us ksq)
  /\ mg_value (evaluate_shelter pos Us ksq shelter)
     = Z.max (mg_value shelter) (mg_value (shelter_bonus pos Us ksq)).
Proof.
  unfold evaluate_shelter.
  destruct (Z.ltb_spec (mg_value shelter) (mg_value (shelter_bonus pos Us ksq)));
    split; auto; lia.
Qed.

Lemma fold_min_distance `{G : Geometry} (ksq : Square) (l : list Square) :
  forall m,
    let d := fold_left (fun m s => Z.min m (distance ksq s)) l m in
    d <= m
    /\ (forall s, In s l -> d <= distance ksq s)
    /\ (d = m \/ exists s, In s l /\ d = distance ksq s).
Proof.
  induction l as [| x l IH]; intros m; cbn [fold_left].
  - split; [lia | split; [intros s [] | left; reflexivity]].
  - destruct (IH (Z.min m (distance ksq x))) as [Hle [Hall Hex]].
    split; [lia | split].
    + intros s [<- | Hin]; [lia | apply Hall; exact Hin].
    + destruct Hex as [Heq | [s [Hin Heq]]].
      * destruct (Z.min_spec m (distance ksq x)) as [[_ Hm] | [_ Hm]].
        -- left. lia.
        -- right. exists x. split; [left; reflexivity | lia].
      * right. exists s. split; [right; exact Hin | exact Heq].
Qed.

(** C2 (as the code has it): [do_king_safety] returns the best shelter score
    minus [(0, 16 * minPawnDist)].  [minPawnDist] is 0 when the side has no
    pawn, 1 when a pawn stands on a square the king attacks, and otherwise
    the least distance from the king to an own pawn, capped at 8.  The best
    shelter is the one with the largest midgame value among the king square
    and the castling squares still available. *)
Theorem king_safety_distance `{G : Geometry} (pos : Position) (Us : Color)
        (e : Entry) :
  let ksq := king_square pos Us in
  let pawns := pieces pos Us PAWN in
  let d := min_pawn_dist pos Us ksq in
  let best := best_shelter pos Us ksq in
  let cands :=
    ksq
    :: (if can_castle pos Us KING_SIDE
        then [make_square (castling_kingside_file pos) (castling_rank pos Us)]
        else [])
    ++ (if can_castle pos Us QUEEN_SIDE
        then [make_square (castling_queenside_file pos) (castling_rank pos Us)]
        else []) in
  fst (do_king_safety pos Us e) = (best - make_score 0 (16 * d))%S
  /\ (pawns = 0 -> d = 0)
  /\ (Z.land pawns (PseudoAttacks Us KING ksq) <> 0 -> d = 1)
  /\ (pawns <> 0 -> Z.land pawns (PseudoAttacks Us KING ksq) = 0 ->
      d <= 8
      /\ (forall s, In s (bb_squares pawns) -> d <= distance ksq s)
      /\ (d = 8 \/ exists s, In s (bb_squares pawns) /\ d = distance ksq s))
  /\ (forall c, In c cands -> mg_value (shelter_bonus pos Us c) <= mg_value best)
  /\ (best = make_score (- VALUE_INFINITE) VALUE_ZERO
      \/ exists c, In c cands /\ best = shelter_bonus pos Us c).
Proof.
  intros ksq pawns d best cands.
  split; [reflexivity |].
  split; [| split; [| split; [| split]]].
  - intros H0. subst d. unfold min_pawn_dist. fold pawns. rewrite H0.
    reflexivity.
  - intros Hadj. subst d. unfold min_pawn_dist. fold pawns.
    apply nz_true in Hadj. rewrite Hadj. reflexivity.
  - intros Hsome Hfar. subst d. unfold min_pawn_dist. fold pawns.
    apply nz_false in Hfar. apply nz_true in Hsome. rewrite Hfar, Hsome.
    apply (fold_min_distance ksq (bb_squares pawns) 8).
  - subst best cands. unfold best_shelter.
    set (sh0 := make_score (- VALUE_INFINITE) VALUE_ZERO).
    set (sqK := make_square (castling_kingside_file pos) (castling_rank pos Us)).
    set (sqQ := make_square (castling_queenside_file pos) (castling_rank pos Us)).
    destruct (evaluate_shelter_cases pos Us ksq sh0) as [_ H1].
    set (sh1 := evaluate_shelter pos Us ksq sh0) in *.
    destruct (evaluate_shelter_cases pos Us sqK sh1) as [_ H2].
    destruct (can_castle pos Us KING_SIDE), (can_castle pos Us QUEEN_SIDE);
      cbn [app In]; intros c Hc.
    + destruct (evaluate_shelter_cases pos Us sqQ (evaluate_shelter pos Us sqK sh1))
        as [_ H3].
      destruct Hc as [<- | [<- | [<- | []]]]; lia.
    + destruct Hc as [<- | [<- | []]]; lia.
    + destruct (evaluate_shelter_cases pos Us sqQ sh1) as [_ H3].
      destruct Hc as [<- | [<- | []]]; lia.
    + destruct Hc as [<- | []]; lia.
  - subst best cands. unfold best_shelter.
    set (sh0 := make_score (- VALUE_INFINITE) VALUE_ZERO).
    set (sqK := make_square (castling_kingside_file pos) (castling_rank pos Us)).
    set (sqQ := make_square (castling_queenside_file pos) (castling_rank pos Us)).
    destruct (evaluate_shelter_cases pos Us ksq sh0) as [H1 _].
    set (sh1 := evaluate_shelter pos Us ksq sh0) in *.
    assert (Hsh1 : sh1 = sh0 \/ sh1 = shelter_bonus pos Us ksq) by exact H1.
    destruct (can_castle pos Us KING_SIDE), (can_castle pos Us QUEEN_SIDE);
      cbn [app In].
    + destruct (evaluate_shelter_cases pos Us sqK sh1) as [H2 _].
      destruct (evaluate_shelter_cases pos Us sqQ (evaluate_shelter pos Us sqK sh1))
        as [H3 _].
      destruct H3 as [-> | ->]; [| right; exists sqQ; auto].
      destruct H2 as [-> | ->]; [| right; exists sqK; auto].
      destruct Hsh1 as [-> | ->]; [left; reflexivity | right; exists ksq; auto].
    + destruct (evaluate_shelter_cases pos Us sqK sh1) as [H2 _].
      destruct H2 as [-> | ->]; [| right; exists sqK; auto].
      destruct Hsh1 as [-> | ->]; [left; reflexivity | right; exists ksq; auto].
    + destruct (evaluate_shelter_cases pos Us sqQ sh1) as [H3 _].
      destruct H3 as [-> | ->]; [| right; exists sqQ; auto].
      destruct Hsh1 as [-> | ->]; [left; reflexivity | right; exists ksq; auto].
    + destruct Hsh1 as [-> | ->]; [left; reflexivity | right; exists ksq; auto].
Qed.

(** C3 (as the code has it): on a board of at least three files, each of the
    three files [f] that [evaluate_shelter] scans lies on the board, and the
    index [d] of the rows of [ShelterStrength] and [UnblockedStorm] used for
    it is the distance of [f] from the nearer edge of the board, capped at
    3; it is a valid row index and is the same for a file and its mirror
    image. *)
Theorem shelter_row_is_edge_distance `{G : Geometry} (pos : Position)
        (Us : Color) (ksq : Square) (f : File) :
  2 <= max_file pos ->
  In f (shelter_files pos ksq) ->
  let d := shelter_d pos f in
  0 <= f <= max_file pos
  /\ d = Z.min (Z.min (f - 0) (max_file pos - f)) 3
  /\ 0 <= d <= 3
  /\ shelter_d pos (max_file pos - f) = d
  /\ forall ourP theirP bonus,
       let ourRank := shelter_rank pos Us (Z.land ourP (file_bb f)) in
       let theirRank := shelter_rank pos Us (Z.land theirP (file_bb f)) in
       shelter_file pos Us ourP theirP bonus f =
       ((bonus + make_score (ShelterStrength d ourRank) 0
                 * (1 + b2z (captures_to_hand pos && (ourRank <=? RANK_2))))
        - (if negb (ourRank =? 0) && (ourRank =? theirRank - 1)
           then make_score (82 * b2z (theirRank =? RANK_3))
                           (82 * b2z (theirRank =? RANK_3))
           else make_score (UnblockedStorm d theirRank) 0))%S.
Proof.
  intros Hboard Hin d.
  assert (Hf : 0 <= f <= max_file pos).
  { unfold shelter_files, shelter_center, clamp, FILE_B in Hin.
    destruct (Z.ltb_spec (file_of ksq) 1);
      [| destruct (Z.ltb_spec (max_file pos - 1) (file_of ksq))];
      cbn [In] in Hin; lia. }
  subst d. unfold shelter_d, FILE_D.
  split; [exact Hf |].
  split; [rewrite Z.sub_0_r; reflexivity |].
  split; [lia |].
  split; [lia |].
  intros ourP theirP bonus.
  unfold shelter_file, shelter_d, FILE_D.
  destruct (negb (shelter_rank pos Us (Z.land ourP (file_bb f)) =? 0)
            && (shelter_rank pos Us (Z.land ourP (file_bb f))
                =? shelter_rank pos Us (Z.land theirP (file_bb f)) - 1));
    reflexivity.
Qed.

(** ** The code on the 8x8 board

    The positions of [Examples], evaluated with the geometry [Std8]. *)

Section OnTheBoard.

#[local] Existing Instance Std8.geometry.

Import Examples.

Lemma recompute_resets_king_squares_witness :
(key (Examples.fresh_table
        !!! slot_of Examples.fresh_table (pawn_key Examples.initial))
 <> pawn_key Examples.initial
 \/ pieces_pt Examples.initial SHOGI_PAWN <> 0)
/\ at_color (kingSquares (entry (probe Examples.initial Examples.fresh_table)))
            WHITE = SQ_NONE
/\ king_safety_is_current
     Examples.initial WHITE
     (entry (probe Examples.initial Examples.fresh_table)) = false.
Proof.
assert (H : key (Examples.fresh_table
                   !!! slot_of Examples.fresh_table (pawn_key Examples.initial))
            <> pawn_key Examples.initial
            \/ pieces_pt Examples.initial SHOGI_PAWN <> 0).
{ left. intros Heq. vm_compute in Heq. discriminate Heq. }
split; [exact H |].
destruct (recompute_resets_king_squares Examples.initial Examples.fresh_table H)
  as [Hw [_ Hcur]].
split; [exact Hw |].
apply Hcur. intros Heq. vm_compute in Heq. discriminate Heq.
Defined.

(** C2, counterexample: Black has no pawn in [doubled_phalanx]; the distance
    term is then 0, not the 8 of the spec, and nothing is subtracted from
    the endgame value of the shelter. *)
Lemma no_pawn_distance_is_zero :
  pieces doubled_phalanx BLACK PAWN = 0
  /\ min_pawn_dist doubled_phalanx BLACK SQ_E8 = 0
  /\ spec_min_pawn_dist doubled_phalanx BLACK SQ_E8 = 8
  /\ fst (do_king_safety doubled_phalanx BLACK zero_entry)
     = best_shelter doubled_phalanx BLACK SQ_E8
  /\ fst (do_king_safety doubled_phalanx BLACK zero_entry)
     <> (best_shelter doubled_phalanx BLACK SQ_E8
         - make_score 0 (16 * spec_min_pawn_dist doubled_phalanx BLACK SQ_E8))%S.
Proof.
  repeat split; try (vm_compute; reflexivity).
  intros H. vm_compute in H. discriminate H.
Qed.

(** C3, counterexample: with the king on the e-file of the 8x8 board, the
    e-file itself is scanned with row 3 (three files from the h-file), while
    its distance from the king's file is 0. *)
Lemma shelter_row_not_king_distance :
  In 4 (shelter_files initial SQ_E1)
  /\ shelter_d initial 4 = 3
  /\ spec_shelter_d SQ_E1 4 = 0.
Proof. vm_compute. auto. Qed.

Lemma shelter_row_is_edge_distance_witness :
  2 <= max_file initial
  /\ In 4 (shelter_files initial SQ_E1)
  /\ shelter_d initial 4 = 3.
Proof.
  assert (Hboard : 2 <= max_file initial) by (vm_compute; discriminate).
  assert (Hin : In 4 (shelter_files initial SQ_E1)) by (vm_compute; auto).
  split; [exact Hboard | split; [exact Hin |]].
  destruct (shelter_row_is_edge_distance initial WHITE SQ_E1 4 Hboard Hin)
    as [_ [Hd _]].
  rewrite Hd. reflexivity.
Defined.

(** C4, counterexample: the white pawn on e4 of [levered] is attacked by the
    pawns on d5 and f5 and attacks both of them; it is not passed and no own
    pawn defends it.  The code charges [WeakLever] for it, whereas no pawn
    meets the three conditions of the spec. *)
Lemma weak_lever_for_attacking_pawn :
  bb_squares (weak_lever_bb levered WHITE
                (snd (pawn_loop levered WHITE zero_entry))) = [SQ_E4]
  /\ Z.land (PseudoAttacks WHITE PAWN SQ_E4) (theirPawns levered WHITE) <> 0
  /\ spec_weak_lever_count levered WHITE
       (snd (pawn_loop levered WHITE zero_entry)) = 0
  /\ fst (pawn_loop levered WHITE zero_entry) = make_score (-5) (-15)
  /\ fst (evaluate levered WHITE zero_entry) = make_score (-5) (-71).
Proof.
  repeat split; try (vm_compute; reflexivity).
  intros H. vm_compute in H. discriminate H.
Qed.

(** C5, counterexample: the white pawn on e4 of [doubled_phalanx] is doubled
    (e3) and unsupported, and stands in a phalanx with d4: it receives the
    connected bonus and the doubled penalty together. *)
Lemma doubled_with_connected_bonus :
  doubled doubled_phalanx WHITE SQ_E4 <> 0
  /\ support doubled_phalanx WHITE SQ_E4 = 0
  /\ connected_applies doubled_phalanx WHITE SQ_E4 = true
  /\ doubled_applies doubled_phalanx WHITE SQ_E4 = true
  /\ connected_term doubled_phalanx WHITE SQ_E4 = make_score 36 9
  /\ score_pawn doubled_phalanx WHITE SCORE_ZERO SQ_E4 = make_score (36 - 11) (9 - 56).
Proof.
  split; [intros H; vm_compute in H; discriminate H |].
  repeat split; vm_compute; reflexivity.
Qed.

(** C6, counterexample: the white pawn on e5 of [blocked_lever] is stopped
    by e6 alone; of its two support pawns, d4 steps onto d5, which holds an
    enemy pawn, and f4 onto the free square f5; both squares are attacked by
    the pawn on e6.  The code calls the pawn passed; under the spec's
    wording none of (a), (b), (c) holds. *)
Lemma passed_with_one_free_support :
  passed blocked_lever WHITE SQ_E5 = true
  /\ spec_passed blocked_lever WHITE SQ_E5 = false
  /\ shift (Up WHITE) (support blocked_lever WHITE SQ_E5)
     = Z.lor (square_bb SQ_D5) (square_bb SQ_F5)
  /\ Z.land (square_bb SQ_D5) (theirPawns blocked_lever WHITE) <> 0
  /\ Z.land (Z.lor (square_bb SQ_D5) (square_bb SQ_F5))
            (pawn_attacks_bb BLACK (square_bb SQ_E6))
     = Z.lor (square_bb SQ_D5) (square_bb SQ_F5).
Proof.
  split; [vm_compute; reflexivity |].
  split; [vm_compute; reflexivity |].
  split; [vm_compute; reflexivity |].
  split; [intros H; vm_compute in H; discriminate H |].
  vm_compute. reflexivity.
Qed.

Lemma passed_iff_witness :
  Z.land (PseudoAttacks WHITE PAWN SQ_E5) (passed_pawn_span WHITE SQ_E5)
  = PseudoAttacks WHITE PAWN SQ_E5
  /\ passed blocked_lever WHITE SQ_E5 = true.
Proof.
  assert (Hatt : Z.land (PseudoAttacks WHITE PAWN SQ_E5) (passed_pawn_span WHITE SQ_E5)
                 = PseudoAttacks WHITE PAWN SQ_E5) by (vm_compute; reflexivity).
  split; [exact Hatt |].
  apply (proj1 (passed_iff blocked_lever WHITE SQ_E5 Hatt)).
  right. right.
  split; [vm_compute; reflexivity |].
  split; [vm_compute; reflexivity |].
  split; [vm_compute; discriminate |].
  exists SQ_F5. vm_compute. repeat split; discriminate.
Defined.

(** C7, counterexample: the white pawn on d4 of [doubled_phalanx] is on its
    fourth rank with bonus 53; the endgame value is 53 * 1 / 4 = 13, not
    53 * (4 - 2) / 4 = 26. *)
Lemma connected_endgame_value :
  rank_of_pawn doubled_phalanx WHITE SQ_D4 + 1 = 4
  /\ score_pawn doubled_phalanx WHITE SCORE_ZERO SQ_D4 = make_score 53 13
  /\ spec_connected_eg doubled_phalanx WHITE SQ_D4 = 26
  /\ eg_value (score_pawn doubled_phalanx WHITE SCORE_ZERO SQ_D4)
     <> spec_connected_eg doubled_phalanx WHITE SQ_D4.
Proof.
  repeat split; try (vm_compute; reflexivity).
  intros H. vm_compute in H. discriminate H.
Qed.

Lemma connected_bonus_witness :
  (support doubled_phalanx WHITE SQ_D4 <> 0 \/ phalanx doubled_phalanx WHITE SQ_D4 <> 0)
  /\ score_pawn doubled_phalanx WHITE SCORE_ZERO SQ_D4 = make_score 53 13.
Proof.
  assert (Hconn : support doubled_phalanx WHITE SQ_D4 <> 0
                  \/ phalanx doubled_phalanx WHITE SQ_D4 <> 0).
  { left. intros H. vm_compute in H. discriminate H. }
  split; [exact Hconn |].
  rewrite (connected_bonus doubled_phalanx WHITE SCORE_ZERO SQ_D4 Hconn).
  vm_compute. reflexivity.
Defined.

(** C8, counterexample: the white pawn on e3 of [held_back] has its only
    neighbour d4 ahead of it and cannot advance past the pawn on d5; the
    code calls it backward, which the spec's condition "no own neighbour
    strictly ahead" excludes. *)
Lemma backward_behind_its_neighbour :
  backward held_back WHITE SQ_E3 = true
  /\ Z.land (neighbours held_back WHITE SQ_E3) (forward_ranks_bb WHITE SQ_E3) <> 0
  /\ spec_backward held_back WHITE SQ_E3 = false
  /\ score_pawn held_back WHITE SCORE_ZERO SQ_E3 = make_score (-22) (-51).
Proof.
  split; [vm_compute; reflexivity |].
  split; [intros H; vm_compute in H; discriminate H |].
  split; vm_compute; reflexivity.
Qed.

(** The doubled penalty on top of the isolated penalty: the white pawn on e4
    of [doubled_alone], with its twin on e3 and no neighbour. *)
Example doubled_and_isolated :
  isolated_applies doubled_alone WHITE SQ_E4 = true
  /\ doubled_applies doubled_alone WHITE SQ_E4 = true
  /\ score_pawn doubled_alone WHITE SCORE_ZERO SQ_E4
     = make_score (- (5 + 13) - 11) (- (15 + 27) - 56).
Proof. vm_compute. auto. Qed.

(** The doubled penalty on top of the backward penalty: the white pawn on e3
    of [doubled_held_back], behind its neighbour d4 and in front of e2. *)
Example doubled_and_backward :
  backward_applies doubled_held_back WHITE SQ_E3 = true
  /\ doubled_applies doubled_held_back WHITE SQ_E3 = true
  /\ score_pawn doubled_held_back WHITE SCORE_ZERO SQ_E3
     = make_score (- (9 + 13) - 11) (- (24 + 27) - 56).
Proof. vm_compute. auto. Qed.

(** The initial position: every pawn is in a phalanx and opposed, none is
    passed, and both sides score alike. *)
Example initial_position :
  evaluate initial WHITE zero_entry
  = (make_score 80 (-16), evaluated_entry initial WHITE zero_entry)
  /\ fst (evaluate initial BLACK zero_entry) = make_score 80 (-16)
  /\ passedPawns (entry (probe initial fresh_table)) = mkByColor 0 0
  /\ fst (do_king_safety initial WHITE zero_entry) = make_score 88 (5 - 16)
  /\ fst (do_king_safety initial BLACK zero_entry) = make_score 88 (5 - 16).
Proof. vm_compute. auto 6. Qed.

End OnTheBoard.

(** * Further properties of the code *)

(** ** What [evaluate] and [probe] leave untouched *)

Lemma at_set_color_other {A : Type} (a : ByColor A) (c : Color) (x : A) :
  at_color (set_color a c x) (Them c) = at_color a (Them c).
Proof. destruct c; reflexivity. Qed.

(** X1: [evaluate<Us>] computes its score from the position alone, whatever
    the entry holds, and writes only the passed pawns, pawn attacks, attack
    span and king square of [Us]: the key, both scores, the castling rights
    and every field of the other colour are the entry's before the call. *)
Theorem evaluate_frame `{G : Geometry} (pos : Position) (Us : Color)
        (e e' : Entry) :
  fst (evaluate pos Us e) = fst (evaluate pos Us e')
  /\ key (snd (evaluate pos Us e)) = key e
  /\ scores (snd (evaluate pos Us e)) = scores e
  /\ castlingRights (snd (evaluate pos Us e)) = castlingRights e
  /\ at_color (passedPawns (snd (evaluate pos Us e))) (Them Us)
     = at_color (passedPawns e) (Them Us)
  /\ at_color (pawnAttacks (snd (evaluate pos Us e))) (Them Us)
     = at_color (pawnAttacks e) (Them Us)
  /\ at_color (pawnAttacksSpan (snd (evaluate pos Us e))) (Them Us)
     = at_color (pawnAttacksSpan e) (Them Us)
  /\ at_color (kingSquares (snd (evaluate pos Us e))) (Them Us)
     = at_color (kingSquares e) (Them Us).
Proof.
  rewrite !evaluate_eq. unfold evaluated_entry.
  cbn [fst snd key scores castlingRights passedPawns pawnAttacks
       pawnAttacksSpan kingSquares].
  rewrite !at_set_color_other. repeat split; reflexivity.
Qed.

Lemma slot_of_lt (tbl : Table) (k : Key) :
  tbl <> [] -> (slot_of tbl k < length tbl)%nat.
Proof.
  intros Hne. unfold slot_of.
  assert (Hlen : 0 < Z.of_nat (length tbl)).
  { destruct tbl; [contradiction | cbn [length]; lia]. }
  pose proof (Z.mod_pos_bound k _ Hlen). lia.
Qed.

Lemma probe_key `{G : Geometry} (pos : Position) (tbl : Table) :
  key (entry (probe pos tbl)) = pawn_key pos.
Proof.
  unfold probe. destruct (is_hit pos _) eqn:Hhit; cbn [entry].
  - apply is_hit_iff in Hhit. tauto.
  - rewrite recompute_eq. reflexivity.
Qed.

Lemma probe_slot `{G : Geometry} (pos : Position) (tbl : Table) :
  slot (probe pos tbl) = slot_of tbl (pawn_key pos).
Proof. unfold probe. destruct (is_hit pos _); reflexivity. Qed.

Lemma probe_length `{G : Geometry} (pos : Position) (tbl : Table) :
  length (table (probe pos tbl)) = length tbl.
Proof.
  unfold probe. destruct (is_hit pos _); cbn [table];
    [reflexivity | apply length_insert].
Qed.

Lemma probe_lookup `{G : Geometry} (pos : Position) (tbl : Table) :
  tbl <> [] ->
  table (probe pos tbl) !!! slot_of tbl (pawn_key pos) = entry (probe pos tbl).
Proof.
  intros Hne. unfold probe. destruct (is_hit pos _); cbn [table entry].
  - reflexivity.
  - apply list_lookup_total_insert_eq, slot_of_lt, Hne.
Qed.

(** X2: [probe] keeps the size of the table and changes no slot other than
    the one the key addresses. *)
Theorem probe_touches_one_slot `{G : Geometry} (pos : Position) (tbl : Table) :
  length (table (probe pos tbl)) = length tbl
  /\ forall j, j <> slot_of tbl (pawn_key pos) ->
               table (probe pos tbl) !! j = tbl !! j.
Proof.
  split; [apply probe_length |].
  intros j Hj. unfold probe. destruct (is_hit pos _); cbn [table].
  - reflexivity.
  - apply list_lookup_insert_ne. congruence.
Qed.

(** X3: for a table with at least one slot, the slot [probe] returns lies in
    the table and holds, after the call, the entry that was returned. *)
Theorem probe_returns_stored_entry `{G : Geometry} (pos : Position)
        (tbl : Table) :
  tbl <> [] ->
  (slot (probe pos tbl) < length (table (probe pos tbl)))%nat
  /\ table (probe pos tbl) !! slot (probe pos tbl) = Some (entry (probe pos tbl)).
Proof.
  intros Hne.
  assert (Hlt : (slot (probe pos tbl) < length (table (probe pos tbl)))%nat).
  { rewrite probe_slot, probe_length. apply slot_of_lt, Hne. }
  split; [exact Hlt |].
  apply list_lookup_lookup_total_lt in Hlt. rewrite Hlt. f_equal.
  rewrite probe_slot. apply probe_lookup, Hne.
Qed.

(** X4: once a position has been probed, a probe of any position with the
    same pawn key and without shogi pawns evaluates nothing: it returns the
    stored entry and leaves the table as it is. *)
Theorem probe_hits_after_store `{G : Geometry} (pos1 pos2 : Position)
        (tbl : Table) :
  tbl <> [] ->
  pawn_key pos2 = pawn_key pos1 ->
  pieces_pt pos2 SHOGI_PAWN = 0 ->
  probe pos2 (table (probe pos1 tbl)) =
  mkProbed [] (table (probe pos1 tbl)) (slot (probe pos1 tbl))
           (entry (probe pos1 tbl)).
Proof.
  intros Hne Hkey Hshogi.
  assert (Hslot : slot_of (table (probe pos1 tbl)) (pawn_key pos2)
                  = slot_of tbl (pawn_key pos1)).
  { unfold slot_of. rewrite probe_length, Hkey. reflexivity. }
  assert (Hlook : table (probe pos1 tbl)
                    !!! slot_of (table (probe pos1 tbl)) (pawn_key pos2)
                  = entry (probe pos1 tbl)).
  { rewrite Hslot. apply probe_lookup, Hne. }
  rewrite probe_hit.
  - rewrite Hlook, Hslot, probe_slot. reflexivity.
  - rewrite Hlook. apply is_hit_iff. split; [| exact Hshogi].
    rewrite probe_key. symmetry. exact Hkey.
Qed.

(** X5: two positions whose different pawn keys address the same slot evict
    one another: probed in turn, each probe evaluates both colours again,
    and the slot holds the key probed last. *)
Theorem probe_collision_evicts `{G : Geometry} (pos1 pos2 : Position)
        (tbl : Table) :
  tbl <> [] ->
  pawn_key pos1 <> pawn_key pos2 ->
  slot_of tbl (pawn_key pos1) = slot_of tbl (pawn_key pos2) ->
  let r1 := probe pos1 tbl in
  let r2 := probe pos2 (table r1) in
  let r3 := probe pos1 (table r2) in
  work r2 = [Evaluated WHITE; Evaluated BLACK]
  /\ work r3 = [Evaluated WHITE; Evaluated BLACK]
  /\ key (table r2 !!! slot_of tbl (pawn_key pos1)) = pawn_key pos2
  /\ key (table r3 !!! slot_of tbl (pawn_key pos1)) = pawn_key pos1.
Proof.
  intros Hne Hkeys Hslots r1 r2 r3.
  assert (Hmiss : forall (p q : Position) (t : Table),
             t <> [] -> pawn_key p <> pawn_key q ->
             slot_of t (pawn_key q) = slot_of t (pawn_key p) ->
             work (probe q (table (probe p t)))
             = [Evaluated WHITE; Evaluated BLACK]).
  { intros p q t Ht Hpq Hs.
    assert (Hlook : table (probe p t) !!! slot_of (table (probe p t)) (pawn_key q)
                    = entry (probe p t)).
    { unfold slot_of. rewrite probe_length. fold (slot_of t (pawn_key q)).
      rewrite Hs. apply probe_lookup, Ht. }
    rewrite probe_miss; [reflexivity |].
    rewrite Hlook. destruct (is_hit q (entry (probe p t))) eqn:Hhit;
      [| reflexivity].
    apply is_hit_iff in Hhit. rewrite probe_key in Hhit. tauto. }
  assert (Hne1 : table r1 <> []).
  { intros H0. apply Hne. apply length_zero_iff_nil.
    rewrite <- (probe_length pos1 tbl). fold r1. rewrite H0. reflexivity. }
  assert (Hs1 : forall k, slot_of (table r1) k = slot_of tbl k).
  { intros k. unfold slot_of. subst r1. rewrite probe_length. reflexivity. }
  split; [| split; [| split]].
  - subst r2 r1. apply Hmiss; auto.
  - subst r3 r2. apply Hmiss; auto. rewrite !Hs1. exact Hslots.
  - rewrite Hslots, <- (Hs1 (pawn_key pos2)). subst r2.
    rewrite probe_lookup by exact Hne1. apply probe_key.
  - assert (Hne2 : table r2 <> []).
    { intros H0. apply Hne1. apply length_zero_iff_nil.
      rewrite <- (probe_length pos2 (table r1)). fold r2. rewrite H0.
      reflexivity. }
    assert (Hs2 : slot_of (table r2) (pawn_key pos1) = slot_of tbl (pawn_key pos1)).
    { unfold slot_of. subst r2. rewrite probe_length. apply Hs1. }
    rewrite <- Hs2. subst r3. rewrite probe_lookup by exact Hne2.
    apply probe_key.
Qed.

(** X6: when [probe] recomputes, the entry it returns is determined by the
    position in every field except the castling rights, which are those the
    slot held before: the same position probed into two tables on a miss
    gives the same key, scores, passed pawns, pawn attacks, attack spans and
    king squares, and each entry keeps its slot's old castling rights. *)
Theorem probe_miss_entry `{G : Geometry} (pos : Position) (tbl1 tbl2 : Table) :
  work (probe pos tbl1) <> [] ->
  work (probe pos tbl2) <> [] ->
  let r1 := entry (probe pos tbl1) in
  let r2 := entry (probe pos tbl2) in
  key r1 = key r2
  /\ scores r1 = scores r2
  /\ passedPawns r1 = passedPawns r2
  /\ pawnAttacks r1 = pawnAttacks r2
  /\ pawnAttacksSpan r1 = pawnAttacksSpan r2
  /\ kingSquares r1 = kingSquares r2
  /\ castlingRights r1
     = castlingRights (tbl1 !!! slot_of tbl1 (pawn_key pos))
  /\ castlingRights r2
     = castlingRights (tbl2 !!! slot_of tbl2 (pawn_key pos)).
Proof.
  intros Hw1 Hw2.
  assert (Hentry : forall t, work (probe pos t) <> [] ->
             entry (probe pos t)
             = computed_entry pos
                 (castlingRights (t !!! slot_of t (pawn_key pos)))).
  { intros t Hw. unfold probe in Hw |- *.
    destruct (is_hit pos _); cbn [work entry] in Hw |- *.
    - contradiction.
    - apply recompute_eq. }
  cbv zeta. rewrite (Hentry tbl1 Hw1), (Hentry tbl2 Hw2).
  repeat split; reflexivity.
Qed.

(** ** The bitboards and the score built by the loops *)

Lemma fold_lor_bits {A : Type} (f : A -> Bitboard) (l : list A) (q : Z) :
  forall b0,
    Z.testbit (fold_left (fun b s => Z.lor b (f s)) l b0) q = true <->
    Z.testbit b0 q = true \/ exists s, In s l /\ Z.testbit (f s) q = true.
Proof.
  induction l as [| x l IH]; intros b0; cbn [fold_left].
  - split; [auto | intros [H | [s [[] _]]]; exact H].
  - rewrite IH, Z.lor_spec, orb_true_iff. split.
    + intros [[H | H] | [s [Hin H]]]; [left; exact H | right .. ].
      * exists x. split; [left; reflexivity | exact H].
      * exists s. split; [right; exact Hin | exact H].
    + intros [H | [s [[<- | Hin] H]]]; [left; left; exact H | left; right; exact H |].
      right. exists s. split; assumption.
Qed.

Lemma fold_cond_lor_bits {A : Type} (c : A -> bool) (f : A -> Bitboard)
      (l : list A) (q : Z) :
  forall b0,
    Z.testbit (fold_left (fun b s => if c s then Z.lor b (f s) else b) l b0) q
    = true <->
    Z.testbit b0 q = true
    \/ exists s, In s l /\ c s = true /\ Z.testbit (f s) q = true.
Proof.
  induction l as [| x l IH]; intros b0; cbn [fold_left].
  - split; [auto | intros [H | [s [[] _]]]; exact H].
  - rewrite IH. destruct (c x) eqn:Hc.
    + rewrite Z.lor_spec, orb_true_iff. split.
      * intros [[H | H] | [s [Hin H]]]; [left; exact H | right .. ].
        -- exists x. split; [left; reflexivity | split; assumption].
        -- exists s. split; [right; exact Hin | exact H].
      * intros [H | [s [[<- | Hin] [Hcs H]]]];
          [left; left; exact H | left; right; exact H |].
        right. exists s. split; [exact Hin | split; assumption].
    + split.
      * intros [H | [s [Hin H]]]; [left; exact H | right].
        exists s. split; [right; exact Hin | exact H].
      * intros [H | [s [[<- | Hin] [Hcs H]]]]; [left; exact H | congruence |].
        right. exists s. split; [exact Hin | split; assumption].
Qed.

(** X7: after [evaluate<Us>], a square is in [pawnAttacksSpan[Us]] exactly
    when it is in the attack span of some pawn of the piece list, and in
    [passedPawns[Us]] exactly when it is the square of a listed pawn that is
    passed and whose forward square is on the board. *)
Theorem evaluate_bitboards_are_unions `{G : Geometry} (pos : Position)
        (Us : Color) (e : Entry) (q : Z) :
  (Z.testbit (at_color (pawnAttacksSpan (snd (evaluate pos Us e))) Us) q = true
   <-> exists s, In s (pieceList pos Us PAWN)
                 /\ Z.testbit (pawn_attack_span Us s) q = true)
  /\ (Z.testbit (at_color (passedPawns (snd (evaluate pos Us e))) Us) q = true
      <-> exists s, In s (pieceList pos Us PAWN)
                    /\ passed pos Us s = true
                    /\ is_ok (s + Up Us) = true
                    /\ Z.testbit (square_bb s) q = true).
Proof.
  rewrite evaluate_eq. unfold evaluated_entry.
  cbn [snd pawnAttacksSpan passedPawns]. rewrite !at_set_color.
  unfold span_bb, passed_bb. split.
  - rewrite fold_lor_bits, Z.bits_0. split.
    + intros [H | H]; [discriminate | exact H].
    + intros H. right. exact H.
  - rewrite (fold_cond_lor_bits
               (fun s => passed pos Us s && is_ok (s + Up Us)) square_bb).
    rewrite Z.bits_0. split.
    + intros [H | [s [Hin [Hc Hb]]]]; [discriminate |].
      apply andb_true_iff in Hc. exists s. tauto.
    + intros [s [Hin [Hp [Hok Hb]]]]. right. exists s.
      rewrite Hp, Hok. auto.
Qed.

Lemma score_pawn_add `{G : Geometry} (pos : Position) (Us : Color)
      (score : Score) (s : Square) :
  score_pawn pos Us score s = (score + score_pawn pos Us SCORE_ZERO s)%S.
Proof.
  rewrite !score_pawn_cases.
  destruct (connected_applies pos Us s), (isolated_applies pos Us s),
    (backward_applies pos Us s), (doubled_applies pos Us s); score_arith.
Qed.

Lemma fold_left_perm {A B : Type} (f : A -> B -> A) :
  (forall a x y, f (f a x) y = f (f a y) x) ->
  forall l l', Permutation l l' -> forall a, fold_left f l a = fold_left f l' a.
Proof.
  intros Hcomm l l' Hperm.
  induction Hperm as [| x l l' _ IH | x y l | l l' l'' _ IH1 _ IH2];
    intros a; cbn [fold_left].
  - reflexivity.
  - apply IH.
  - rewrite Hcomm. reflexivity.
  - rewrite IH1. apply IH2.
Qed.

Lemma shogi_step_comm `{G : Geometry} (pos : Position) (Us : Color)
      (a : Score) (x y : Square) :
  shogi_step pos Us (shogi_step pos Us a x) y
  = shogi_step pos Us (shogi_step pos Us a y) x.
Proof.
  unfold shogi_step.
  destruct (negb (nz (Z.land (pieces pos Us SHOGI_PAWN) (adjacent_files_bb x)))),
    (negb (nz (Z.land (pieces pos Us SHOGI_PAWN) (adjacent_files_bb y))));
    reflexivity.
Qed.

(** X8: the result of [evaluate<Us>] and of [probe] does not depend on the
    order in which the piece lists enumerate the pawns: a position whose
    piece lists are permutations of those of [pos], everything else being
    equal, gets the same score, the same entry and the same table. *)
Theorem evaluate_order_independent `{G : Geometry} (pos : Position)
        (pl : Color -> PieceType -> list Square) (Us : Color) (e : Entry)
        (tbl : Table) :
  (forall c pt, Permutation (pl c pt) (pieceList pos c pt)) ->
  evaluate (with_piece_lists pos pl) Us e = evaluate pos Us e
  /\ probe (with_piece_lists pos pl) tbl = probe pos tbl.
Proof.
  intros Hperm.
  assert (Heval : forall c e0,
             evaluate (with_piece_lists pos pl) c e0 = evaluate pos c e0).
  { intros c e0. rewrite !evaluate_eq.
    unfold pawn_score, evaluated_entry, passed_bb, span_bb.
    change (pieceList (with_piece_lists pos pl)) with pl.
    rewrite (fold_left_perm _ (shogi_step_comm (with_piece_lists pos pl) c)
               _ _ (Hperm c SHOGI_PAWN)).
    rewrite (fold_left_perm (score_pawn (with_piece_lists pos pl) c)) with
      (l' := pieceList pos c PAWN); [| | apply Hperm].
    2: { intros a x y.
         rewrite (score_pawn_add _ _ (score_pawn _ _ a x) y),
           (score_pawn_add _ _ a x), (score_pawn_add _ _ (score_pawn _ _ a y) x),
           (score_pawn_add _ _ a y).
         score_arith. }
    rewrite (fold_left_perm
               (fun b s => if passed (with_piece_lists pos pl) c s
                              && is_ok (s + Up c)
                           then Z.lor b (square_bb s) else b)) with
      (l' := pieceList pos c PAWN); [| | apply Hperm].
    2: { intros a x y.
         destruct (passed (with_piece_lists pos pl) c x && is_ok (x + Up c)),
           (passed (with_piece_lists pos pl) c y && is_ok (y + Up c));
           try reflexivity.
         rewrite <- !Z.lor_assoc, (Z.lor_comm (square_bb x)). reflexivity. }
    rewrite (fold_left_perm (fun b s => Z.lor b (pawn_attack_span c s))) with
      (l' := pieceList pos c PAWN); [| | apply Hperm].
    2: { intros a x y.
         rewrite <- !Z.lor_assoc, (Z.lor_comm (pawn_attack_span c x)).
         reflexivity. }
    reflexivity. }
  split; [apply Heval |].
  assert (Hrec : forall e0, recompute (with_piece_lists pos pl) e0 = recompute pos e0).
  { intros e0. unfold recompute.
    change (pawn_key (with_piece_lists pos pl)) with (pawn_key pos).
    rewrite (Heval WHITE).
    destruct (evaluate pos WHITE (set_key e0 (pawn_key pos))) as [sw e2].
    rewrite (Heval BLACK). reflexivity. }
  unfold probe.
  change (pawn_key (with_piece_lists pos pl)) with (pawn_key pos).
  change (is_hit (with_piece_lists pos pl)) with (is_hit pos).
  rewrite Hrec. reflexivity.
Qed.

Lemma fold_shogi_step `{G : Geometry} (pos : Position) (Us : Color)
      (l : list Square) :
  forall score,
    fold_left (shogi_step pos Us) l score
    = (score - make_score 2 7
               * Z.of_nat (length (List.filter (shogi_isolated pos Us) l)))%S.
Proof.
  induction l as [| s l IH]; intros score; cbn [fold_left List.filter].
  - cbn [length]. score_arith.
  - rewrite IH. unfold shogi_step. fold (shogi_isolated pos Us s).
    destruct (shogi_isolated pos Us s); cbn [length].
    + unfold score_div, Isolated. cbn [mg_value eg_value].
      change (Z.quot 5 2) with 2. change (Z.quot 15 2) with 7.
      rewrite Nat2Z.inj_succ. score_arith.
    + reflexivity.
Qed.

(** X9: every shogi pawn of the piece list with no own shogi pawn on an
    adjacent file costs (2, 7), half of [Isolated] rounded toward zero, and
    this is subtracted after the doubling for sides without pieces: the
    shogi pawn penalty itself is never doubled. *)
Theorem shogi_pawn_penalty `{G : Geometry} (pos : Position) (Us : Color)
        (e : Entry) :
  fst (evaluate pos Us e) =
  (double_if_bare pos Us
     (fst (pawn_loop pos Us e)
      - WeakLever * popcount (weak_lever_bb pos Us (snd (pawn_loop pos Us e))))
   - make_score 2 7
     * Z.of_nat (length (List.filter (shogi_isolated pos Us)
                                     (pieceList pos Us SHOGI_PAWN))))%S.
Proof.
  unfold evaluate. destruct (pawn_loop pos Us e) as [sc e1]. cbn [fst snd].
  apply fold_shogi_step.
Qed.

(** X10: for a side without pawns of either kind (empty piece lists, empty
    pawn bitboard) [evaluate] returns the zero score and empty passed-pawn
    and attack-span bitboards, whether or not the score is doubled. *)
Theorem evaluate_without_pawns `{G : Geometry} (pos : Position) (Us : Color)
        (e : Entry) :
  pieces pos Us PAWN = 0 ->
  pieceList pos Us PAWN = [] ->
  pieceList pos Us SHOGI_PAWN = [] ->
  fst (evaluate pos Us e) = SCORE_ZERO
  /\ at_color (passedPawns (snd (evaluate pos Us e))) Us = 0
  /\ at_color (pawnAttacksSpan (snd (evaluate pos Us e))) Us = 0.
Proof.
  intros Hbb Hpl Hsl. rewrite evaluate_eq.
  unfold pawn_score, evaluated_entry, passed_bb, span_bb, ourPawns.
  cbn [fst snd passedPawns pawnAttacksSpan].
  rewrite !at_set_color, Hbb, Hpl, Hsl. cbn [fold_left].
  rewrite !Z.land_0_l. split; [| split; reflexivity].
  unfold double_if_bare.
  destruct (pieceCount pos Us ALL_PIECES =? pieceCount pos Us PAWN);
    reflexivity.
Qed.

(** X11: when the opponent has no pawn, every pawn is passed, none is
    opposed or backward and none has a stopper; the only penalties left are
    the isolated one, always with the full [WeakUnopposed], and [Doubled]. *)
Theorem no_enemy_pawns `{G : Geometry} (pos : Position) (Us : Color)
        (s : Square) :
  pieces pos (Them Us) PAWN = 0 ->
  passed pos Us s = true
  /\ opposed pos Us s = false
  /\ backward pos Us s = false
  /\ stoppers pos Us s = 0
  /\ backward_applies pos Us s = false
  /\ isolated_term pos Us s
     = (Isolated * (1 + 2 * b2z (must_capture pos)) + WeakUnopposed)%S.
Proof.
  intros Hnone.
  assert (Hst : stoppers pos Us s = 0).
  { unfold stoppers, theirPawns. rewrite Hnone. apply Z.land_0_l. }
  assert (Hlev : lever pos Us s = 0).
  { unfold lever, theirPawns. rewrite Hnone. apply Z.land_0_l. }
  assert (Hopp : opposed pos Us s = false).
  { unfold opposed, theirPawns. rewrite Hnone, Z.land_0_l. reflexivity. }
  assert (Hback : backward pos Us s = false).
  { unfold backward. rewrite Hst, Z.land_0_l.
    cbn [nz Z.eqb negb]. apply andb_false_r. }
  split; [| split; [exact Hopp | split; [exact Hback | split; [exact Hst |]]]].
  - unfold passed. rewrite Hst, Hlev. reflexivity.
  - split.
    + unfold backward_applies. rewrite Hback. apply andb_false_r.
    + unfold isolated_term. rewrite Hopp.
      change (b2z (negb false)) with 1. score_arith.
Qed.

(** ** Signs and bounds *)

Lemma zth_bounds (l : list Z) (lo hi : Z) :
  lo <= 0 <= hi ->
  Forall (fun x => lo <= x <= hi) l ->
  forall i, lo <= zth l i <= hi.
Proof.
  intros H0 Hall i. unfold zth. revert Hall. generalize (Z.to_nat i).
  induction l as [| x l IH]; intros n Hall.
  - destruct n; cbn [nth]; exact H0.
  - apply Forall_cons in Hall. destruct Hall as [Hx Hl].
    destruct n; cbn [nth]; [exact Hx | apply IH, Hl].
Qed.

Lemma rows_bounds (rows : list (list Z)) (lo hi : Z) :
  lo <= 0 <= hi ->
  Forall (Forall (fun x => lo <= x <= hi)) rows ->
  forall d r, lo <= zth (nth (Z.to_nat d) rows []) r <= hi.
Proof.
  intros H0 Hall d r. apply zth_bounds; [exact H0 |].
  revert Hall. generalize (Z.to_nat d).
  induction rows as [| row rows IH]; intros n Hall.
  - destruct n; cbn [nth]; constructor.
  - apply Forall_cons in Hall. destruct Hall as [Hrow Hrows].
    destruct n; cbn [nth]; [exact Hrow | apply IH, Hrows].
Qed.

Lemma Connected_nonneg (r : Rank) : 0 <= Connected r <= 86.
Proof.
  unfold Connected. apply zth_bounds; [lia |].
  unfold Connected_tbl. repeat (constructor; [lia |]). constructor.
Qed.

Lemma ShelterStrength_bounds (d : Z) (r : Rank) :
  -166 <= ShelterStrength d r <= 93.
Proof.
  unfold ShelterStrength. apply rows_bounds; [lia |].
  unfold ShelterStrength_tbl.
  repeat (constructor; [repeat (constructor; [lia |]); constructor |]).
  constructor.
Qed.

Lemma UnblockedStorm_bounds (d : Z) (r : Rank) :
  -285 <= UnblockedStorm d r <= 162.
Proof.
  unfold UnblockedStorm. apply rows_bounds; [lia |].
  unfold UnblockedStorm_tbl.
  repeat (constructor; [repeat (constructor; [lia |]); constructor |]).
  constructor.
Qed.

Lemma popcount_nonneg (b : Bitboard) : 0 <= popcount b.
Proof. unfold popcount. lia. Qed.

Lemma connected_v_nonneg `{G : Geometry} (pos : Position) (Us : Color)
      (s : Square) :
  0 <= connected_v pos Us s.
Proof.
  unfold connected_v.
  pose proof (Connected_nonneg (rank_of_pawn pos Us s)) as Hc.
  pose proof (popcount_nonneg (support pos Us s)) as Hs.
  set (base := Z.quot _ _ + 17 * popcount (support pos Us s)).
  assert (Hbase : 0 <= base).
  { subst base.
    assert (0 <= Z.quot (Connected (rank_of_pawn pos Us s)
                         * (if nz (phalanx pos Us s) then 3 else 2)
                         * (if (rank_of_pawn pos Us s =? RANK_2)
                               && captures_to_hand pos then 3 else 1))
                        (if opposed pos Us s then 2 else 1)).
    { apply Z.quot_pos.
      - destruct (nz (phalanx pos Us s)),
          ((rank_of_pawn pos Us s =? RANK_2) && captures_to_hand pos); nia.
      - destruct (opposed pos Us s); lia. }
    lia. }
  destruct ((RANK_4 <=? rank_of_pawn pos Us s) && _); [| exact Hbase].
  apply Z.quot_pos; [lia | destruct (opposed pos Us s); lia].
Qed.

(** X12: a pawn without support and phalanx never raises the score, in
    either phase.  A pawn with support or phalanx has a bonus of at least
    zero: its midgame score drops by at most the 11 of [Doubled], and from
    [RANK_3] on its endgame score by at most the 56 of [Doubled]. *)
Theorem pawn_score_signs `{G : Geometry} (pos : Position) (Us : Color)
        (score : Score) (s : Square) :
  0 <= connected_v pos Us s
  /\ (connected_applies pos Us s = false ->
      mg_value (score_pawn pos Us score s) <= mg_value score
      /\ eg_value (score_pawn pos Us score s) <= eg_value score)
  /\ (connected_applies pos Us s = true ->
      mg_value score - 11 <= mg_value (score_pawn pos Us score s)
      /\ (RANK_3 <= rank_of_pawn pos Us s ->
          eg_value score - 56 <= eg_value (score_pawn pos Us score s))).
Proof.
  pose proof (connected_v_nonneg pos Us s) as Hv.
  split; [exact Hv |].
  rewrite score_pawn_cases. split.
  - intros Hc. rewrite Hc.
    unfold isolated_term, backward_term.
    destruct (isolated_applies pos Us s), (backward_applies pos Us s),
      (doubled_applies pos Us s), (must_capture pos), (opposed pos Us s);
      unfold score_add, score_sub, score_mul, Isolated, WeakUnopposed,
        Backward, Doubled, SCORE_ZERO, b2z;
      cbn [mg_value eg_value negb]; lia.
  - intros Hc. rewrite Hc. unfold connected_term. split.
    + destruct (doubled_applies pos Us s);
        unfold score_add, score_sub, Doubled, SCORE_ZERO;
        cbn [mg_value eg_value]; lia.
    + intros Hr.
      assert (0 <= Z.quot (connected_v pos Us s * (rank_of_pawn pos Us s - 2)) 4).
      { apply Z.quot_pos; [| lia]. unfold RANK_3 in Hr. nia. }
      destruct (doubled_applies pos Us s);
        unfold score_add, score_sub, Doubled, SCORE_ZERO;
        cbn [mg_value eg_value]; lia.
Qed.

(** ** The shelter *)

Lemma shelter_file_values `{G : Geometry} (pos : Position) (Us : Color)
      (ourP theirP : Bitboard) (bonus : Score) (f : File) :
  eg_value (shelter_file pos Us ourP theirP bonus f)
  = eg_value bonus - 82 * b2z (shelter_blocked_on_rank3 pos Us ourP theirP f)
  /\ mg_value bonus - 494 <= mg_value (shelter_file pos Us ourP theirP bonus f)
     <= mg_value bonus + 471.
Proof.
  unfold shelter_file, shelter_blocked_on_rank3.
  set (ourRank := shelter_rank pos Us (Z.land ourP (file_bb f))).
  set (theirRank := shelter_rank pos Us (Z.land theirP (file_bb f))).
  pose proof (ShelterStrength_bounds (shelter_d pos f) ourRank) as Hs.
  pose proof (UnblockedStorm_bounds (shelter_d pos f) theirRank) as Hu.
  destruct (negb (ourRank =? 0) && (ourRank =? theirRank - 1));
    destruct (theirRank =? RANK_3);
    destruct (captures_to_hand pos && (ourRank <=? RANK_2));
    unfold score_add, score_sub, score_mul, b2z;
    cbn [mg_value eg_value andb]; lia.
Qed.

Lemma fold_shelter_file `{G : Geometry} (pos : Position) (Us : Color)
      (ourP theirP : Bitboard) (l : list File) :
  forall bonus,
    let r := fold_left (shelter_file pos Us ourP theirP) l bonus in
    eg_value r
    = eg_value bonus
      - 82 * Z.of_nat (length (List.filter
                                 (shelter_blocked_on_rank3 pos Us ourP theirP) l))
    /\ mg_value bonus - 494 * Z.of_nat (length l) <= mg_value r
       <= mg_value bonus + 471 * Z.of_nat (length l).
Proof.
  induction l as [| f l IH]; intros bonus; cbn [fold_left List.filter length].
  - cbv zeta. lia.
  - destruct (IH (shelter_file pos Us ourP theirP bonus f)) as [Heg Hmg].
    destruct (shelter_file_values pos Us ourP theirP bonus f) as [Heg1 Hmg1].
    cbv zeta. rewrite Heg, Heg1.
    destruct (shelter_blocked_on_rank3 pos Us ourP theirP f);
      cbn [length]; unfold b2z; lia.
Qed.

(** X13: the shelter bonus of a king square has endgame value 5 minus 82
    for each of the three scanned files on which an own pawn stands
    directly behind an enemy pawn on [RANK_3]: the tables contribute to the
    midgame value only.  The midgame value lies between -1477 and 1418. *)
Theorem shelter_bonus_values `{G : Geometry} (pos : Position) (Us : Color)
        (ksq : Square) :
  let b := shelter_pawns pos Us ksq in
  let ourP := Z.land b (pieces_c pos Us) in
  let theirP := Z.land b (pieces_c pos (Them Us)) in
  let blocked :=
    Z.of_nat (length (List.filter (shelter_blocked_on_rank3 pos Us ourP theirP)
                                  (shelter_files pos ksq))) in
  eg_value (shelter_bonus pos Us ksq) = 5 - 82 * blocked
  /\ 0 <= blocked <= 3
  /\ -1477 <= mg_value (shelter_bonus pos Us ksq) <= 1418.
Proof.
  intros b ourP theirP blocked.
  destruct (fold_shelter_file pos Us ourP theirP (shelter_files pos ksq)
                              (make_score 5 5)) as [Heg Hmg].
  fold b ourP theirP in Heg, Hmg. unfold shelter_bonus. fold b ourP theirP.
  cbn [mg_value eg_value] in Heg, Hmg.
  split; [exact Heg | split].
  - subst blocked. unfold shelter_files. cbn [List.filter].
    destruct (shelter_blocked_on_rank3 pos Us ourP theirP (shelter_center pos ksq - 1)),
      (shelter_blocked_on_rank3 pos Us ourP theirP (shelter_center pos ksq)),
      (shelter_blocked_on_rank3 pos Us ourP theirP (shelter_center pos ksq + 1));
      cbn [length]; lia.
  - unfold shelter_files in Hmg |- *. cbn [length] in Hmg. lia.
Qed.

(** ** King safety *)

Lemma min_pawn_dist_le_8 `{G : Geometry} (pos : Position) (Us : Color)
      (ksq : Square) :
  min_pawn_dist pos Us ksq <= 8.
Proof.
  unfold min_pawn_dist.
  destruct (nz (Z.land (pieces pos Us PAWN) (PseudoAttacks Us KING ksq)));
    [lia |].
  destruct (fold_min_distance ksq (bb_squares (pieces pos Us PAWN))
              (if nz (pieces pos Us PAWN) then 8 else 0)) as [Hle _].
  cbv zeta in Hle. destruct (nz (pieces pos Us PAWN)); lia.
Qed.

(** X14: the shelter [do_king_safety] settles on is always the bonus of the
    king square or of an available castling square; the initial value with
    midgame [-VALUE_INFINITE] is never returned.  The score returned has a
    midgame value between -1477 and 1418 and an endgame value of at least
    -369. *)
Theorem best_shelter_is_evaluated `{G : Geometry} (pos : Position) (Us : Color)
        (e : Entry) :
  let best := best_shelter pos Us (king_square pos Us) in
  (exists c, In c (shelter_candidates pos Us) /\ best = shelter_bonus pos Us c)
  /\ best <> make_score (- VALUE_INFINITE) VALUE_ZERO
  /\ -1477 <= mg_value (fst (do_king_safety pos Us e)) <= 1418
  /\ -369 <= eg_value (fst (do_king_safety pos Us e)).
Proof.
  intros best.
  assert (Hbonus : forall c, -1477 <= mg_value (shelter_bonus pos Us c) <= 1418
                             /\ -241 <= eg_value (shelter_bonus pos Us c)).
  { intros c. unfold shelter_bonus.
    destruct (fold_shelter_file pos Us
                (Z.land (shelter_pawns pos Us c) (pieces_c pos Us))
                (Z.land (shelter_pawns pos Us c) (pieces_c pos (Them Us)))
                (shelter_files pos c) (make_score 5 5)) as [Heg Hmg].
    cbv zeta in Heg, Hmg. cbn [mg_value eg_value] in Heg, Hmg.
    assert (Hlen : (length (List.filter
                              (shelter_blocked_on_rank3 pos Us
                                 (Z.land (shelter_pawns pos Us c) (pieces_c pos Us))
                                 (Z.land (shelter_pawns pos Us c)
                                         (pieces_c pos (Them Us))))
                              (shelter_files pos c)) <= 3)%nat).
    { etransitivity; [apply filter_length_le |]. reflexivity. }
    unfold shelter_files in Hmg |- *. cbn [length] in Hmg.
    unfold shelter_files in Heg, Hlen. lia. }
  assert (Hex : exists c, In c (shelter_candidates pos Us)
                          /\ best = shelter_bonus pos Us c).
  { subst best. unfold best_shelter, shelter_candidates.
    set (ksq := king_square pos Us).
    set (sqK := make_square (castling_kingside_file pos) (castling_rank pos Us)).
    set (sqQ := make_square (castling_queenside_file pos) (castling_rank pos Us)).
    assert (H1 : evaluate_shelter pos Us ksq
                   (make_score (- VALUE_INFINITE) VALUE_ZERO)
                 = shelter_bonus pos Us ksq).
    { unfold evaluate_shelter. cbn [mg_value].
      destruct (Hbonus ksq) as [Hmg _].
      assert (Hlt : (- VALUE_INFINITE <? mg_value (shelter_bonus pos Us ksq))
                    = true).
      { apply Z.ltb_lt. unfold VALUE_INFINITE. lia. }
      rewrite Hlt. reflexivity. }
    rewrite H1.
    destruct (can_castle pos Us KING_SIDE), (can_castle pos Us QUEEN_SIDE);
      cbn [app In].
    - destruct (evaluate_shelter_cases pos Us sqK (shelter_bonus pos Us ksq))
        as [H2 _].
      destruct (evaluate_shelter_cases pos Us sqQ
                  (evaluate_shelter pos Us sqK (shelter_bonus pos Us ksq)))
        as [H3 _].
      destruct H3 as [-> | ->]; [| exists sqQ; auto].
      destruct H2 as [-> | ->]; [exists ksq; auto | exists sqK; auto].
    - destruct (evaluate_shelter_cases pos Us sqK (shelter_bonus pos Us ksq))
        as [H2 _].
      destruct H2 as [-> | ->]; [exists ksq; auto | exists sqK; auto].
    - destruct (evaluate_shelter_cases pos Us sqQ (shelter_bonus pos Us ksq))
        as [H3 _].
      destruct H3 as [-> | ->]; [exists ksq; auto | exists sqQ; auto].
    - exists ksq. auto. }
  destruct Hex as [c [Hin Hbest]].
  destruct (Hbonus c) as [Hmg Heg].
  split; [exists c; auto |]. split.
  - rewrite Hbest. intros Heq. rewrite Heq in Hmg. cbn [mg_value] in Hmg.
    unfold VALUE_INFINITE in Hmg. lia.
  - unfold do_king_safety. cbn [fst]. fold best. rewrite Hbest.
    pose proof (min_pawn_dist_le_8 pos Us (king_square pos Us)) as Hd.
    unfold score_sub, VALUE_ZERO. cbn [mg_value eg_value]. lia.
Qed.

(** X15: [do_king_safety<Us>] stores the king square and the castling rights
    of [Us] and nothing else; called for both colours, in either order, it
    leaves an entry whose stored king squares and castling rights are the
    position's (so that the caller's test finds both colours current), with
    key, scores and pawn bitboards unchanged.  The score it returns does not
    depend on the entry. *)
Theorem do_king_safety_stores_king `{G : Geometry} (pos : Position)
        (e e' : Entry) :
  let e2 := snd (do_king_safety pos BLACK (snd (do_king_safety pos WHITE e))) in
  snd (do_king_safety pos WHITE (snd (do_king_safety pos BLACK e))) = e2
  /\ kingSquares e2 = mkByColor (king_square pos WHITE) (king_square pos BLACK)
  /\ castlingRights e2
     = mkByColor (castling_rights pos WHITE) (castling_rights pos BLACK)
  /\ king_safety_is_current pos WHITE e2 = true
  /\ king_safety_is_current pos BLACK e2 = true
  /\ key e2 = key e
  /\ scores e2 = scores e
  /\ passedPawns e2 = passedPawns e
  /\ pawnAttacks e2 = pawnAttacks e
  /\ pawnAttacksSpan e2 = pawnAttacksSpan e
  /\ forall Us, fst (do_king_safety pos Us e) = fst (do_king_safety pos Us e').
Proof.
  cbv zeta. unfold do_king_safety, king_safety_is_current.
  cbn [fst snd set_castlingRights set_kingSquares key scores passedPawns
       pawnAttacks pawnAttacksSpan kingSquares castlingRights set_color
       at_color white black].
  rewrite !Z.eqb_refl. repeat split; reflexivity.
Qed.

(** X16: on a board where every own pawn is at distance 1 or more from the
    king square and the king attacks exactly the pawn squares at distance
    1, the early exit of [do_king_safety] gives what the loop over the pawns
    would give: [minPawnDist] is the minimum of 8 and the distances to the
    own pawns, 0 for a side without pawns, and lies between 0 and 8. *)
Theorem min_pawn_dist_is_minimum `{G : Geometry} (pos : Position) (Us : Color)
        (ksq : Square) :
  0 <= pieces pos Us PAWN ->
  forallb (fun s => (1 <=? distance ksq s)
                    && Bool.eqb (Z.testbit (PseudoAttacks Us KING ksq) s)
                                (distance ksq s =? 1))
          (bb_squares (pieces pos Us PAWN)) = true ->
  min_pawn_dist pos Us ksq
  = fold_left (fun m s => Z.min m (distance ksq s))
              (bb_squares (pieces pos Us PAWN))
              (if nz (pieces pos Us PAWN) then 8 else 0)
  /\ 0 <= min_pawn_dist pos Us ksq <= 8.
Proof.
  intros Hnonneg Hgeo.
  set (pawns := pieces pos Us PAWN) in *.
  assert (Hall : forall s, In s (bb_squares pawns) ->
                           1 <= distance ksq s
                           /\ (Z.testbit (PseudoAttacks Us KING ksq) s = true
                               <-> distance ksq s = 1)).
  { intros s Hin.
    pose proof (proj1 (forallb_forall _ _) Hgeo s Hin) as Hs. cbv beta in Hs.
    apply andb_true_iff in Hs. destruct Hs as [H1 Heqb].
    apply Z.leb_le in H1. apply Bool.eqb_prop in Heqb.
    rewrite Heqb, Z.eqb_eq. split; [exact H1 | reflexivity]. }
  destruct (fold_min_distance ksq (bb_squares pawns)
              (if nz pawns then 8 else 0)) as [Hle [Hlow Hex]].
  cbv zeta in Hle, Hlow, Hex.
  set (d := fold_left (fun m s => Z.min m (distance ksq s)) (bb_squares pawns)
                      (if nz pawns then 8 else 0)) in *.
  assert (Hd0 : 0 <= d <= 8).
  { destruct (nz pawns).
    - destruct Hex as [-> | [s [Hin ->]]]; [lia |].
      destruct (Hall s Hin). lia.
    - destruct Hex as [-> | [s [Hin ->]]]; [lia |].
      destruct (Hall s Hin). lia. }
  assert (Hmin : min_pawn_dist pos Us ksq = d).
  { unfold min_pawn_dist. fold pawns. fold d.
    destruct (nz (Z.land pawns (PseudoAttacks Us KING ksq))) eqn:Hadj;
      [| reflexivity].
    apply nz_bit in Hadj. destruct Hadj as [q [Hq Hbit]].
    rewrite Z.land_spec in Hbit. apply andb_true_iff in Hbit.
    destruct Hbit as [Hpawn Hatt].
    assert (Hin : In q (bb_squares pawns)).
    { apply in_bb_squares; auto. }
    destruct (Hall q Hin) as [_ Hone].
    pose proof (Hlow q Hin) as Hdq. rewrite (proj1 Hone Hatt) in Hdq.
    assert (Hnz : nz pawns = true).
    { apply nz_bit. exists q. auto. }
    rewrite Hnz in Hex.
    destruct Hex as [Hd8 | [s [Hs Hds]]]; [lia |].
    destruct (Hall s Hs). lia. }
  rewrite Hmin. split; [reflexivity | exact Hd0].
Qed.

(** ** Probes of different slots *)

Lemma probe_insert_other `{G : Geometry} (pos : Position) (tbl : Table)
      (j : nat) (x : Entry) :
  j <> slot_of tbl (pawn_key pos) ->
  probe pos (<[j := x]> tbl) =
  mkProbed (work (probe pos tbl)) (<[j := x]> (table (probe pos tbl)))
           (slot (probe pos tbl)) (entry (probe pos tbl)).
Proof.
  intros Hj. unfold probe. rewrite slot_of_insert.
  rewrite list_lookup_total_insert_ne by exact Hj.
  destruct (is_hit pos _); cbn [work table slot entry].
  - reflexivity.
  - f_equal. apply list_insert_insert_ne. congruence.
Qed.

(** X17: probes of two positions whose keys address different slots do not
    interfere: each returns the entry it would return on the original table,
    and the table after both probes is the same in either order. *)
Theorem probe_other_slots_commute `{G : Geometry} (pos1 pos2 : Position)
        (tbl : Table) :
  slot_of tbl (pawn_key pos1) <> slot_of tbl (pawn_key pos2) ->
  entry (probe pos2 (table (probe pos1 tbl))) = entry (probe pos2 tbl)
  /\ entry (probe pos1 (table (probe pos2 tbl))) = entry (probe pos1 tbl)
  /\ work (probe pos2 (table (probe pos1 tbl))) = work (probe pos2 tbl)
  /\ table (probe pos2 (table (probe pos1 tbl)))
     = table (probe pos1 (table (probe pos2 tbl))).
Proof.
  intros Hne.
  assert (Hne' : slot_of tbl (pawn_key pos2) <> slot_of tbl (pawn_key pos1))
    by congruence.
  assert (Htab : forall p, table (probe p tbl) = tbl
                           \/ table (probe p tbl)
                              = <[slot_of tbl (pawn_key p) := entry (probe p tbl)]> tbl).
  { intros p. unfold probe. destruct (is_hit p _); cbn [table entry]; auto. }
  destruct (Htab pos1) as [H1 | H1], (Htab pos2) as [H2 | H2];
    rewrite H1, H2; rewrite ?probe_insert_other by assumption;
    cbn [entry work table]; rewrite ?H1, ?H2;
    repeat split; try reflexivity.
  apply list_insert_insert_ne. exact Hne.
Qed.

(** ** The files scanned for the shelter *)

(** X18: on a board of at least three files and for a king square on the
    board, the three files scanned by [evaluate_shelter] are consecutive
    files of the board and include the king's file; the window is centred on
    the king's file unless the king stands on an edge file, where it is
    moved one file inward. *)
Theorem shelter_window `{G : Geometry} (pos : Position) (ksq : Square) :
  2 <= max_file pos ->
  0 <= file_of ksq <= max_file pos ->
  let c := shelter_center pos ksq in
  shelter_files pos ksq = [c - 1; c; c + 1]
  /\ In (file_of ksq) (shelter_files pos ksq)
  /\ 0 <= c - 1 /\ c + 1 <= max_file pos
  /\ (0 < file_of ksq < max_file pos -> c = file_of ksq)
  /\ (file_of ksq = 0 -> c = 1)
  /\ (file_of ksq = max_file pos -> c = max_file pos - 1).
Proof.
  intros Hboard Hfile c. subst c.
  unfold shelter_files, shelter_center, clamp, FILE_B.
  destruct (Z.ltb_spec (file_of ksq) 1);
    [| destruct (Z.ltb_spec (max_file pos - 1) (file_of ksq))];
    cbn [In]; repeat split; lia.
Qed.

(** ** The further properties on the 8x8 board *)

Section OnTheBoardAgain.

#[local] Existing Instance Std8.geometry.

Import Examples.

Lemma fresh_table_not_empty : fresh_table <> [].
Proof. intros H. vm_compute in H. discriminate H. Qed.

Lemma probe_returns_stored_entry_witness :
  fresh_table <> []
  /\ table (probe initial fresh_table) !! slot (probe initial fresh_table)
     = Some (entry (probe initial fresh_table)).
Proof.
  split; [exact fresh_table_not_empty |].
  apply (probe_returns_stored_entry initial fresh_table fresh_table_not_empty).
Defined.

Lemma probe_hits_after_store_witness :
  fresh_table <> []
  /\ pawn_key initial = pawn_key initial
  /\ pieces_pt initial SHOGI_PAWN = 0
  /\ work (probe initial (table (probe initial fresh_table))) = [].
Proof.
  split; [exact fresh_table_not_empty |].
  split; [reflexivity |]. split; [reflexivity |].
  rewrite (probe_hits_after_store initial initial fresh_table
             fresh_table_not_empty eq_refl eq_refl).
  reflexivity.
Defined.

Lemma probe_collision_evicts_witness :
  fresh_table <> []
  /\ pawn_key levered <> pawn_key initial
  /\ slot_of fresh_table (pawn_key levered) = slot_of fresh_table (pawn_key initial)
  /\ work (probe initial (table (probe levered fresh_table)))
     = [Evaluated WHITE; Evaluated BLACK].
Proof.
  assert (Hkeys : pawn_key levered <> pawn_key initial).
  { intros H. vm_compute in H. discriminate H. }
  assert (Hslots : slot_of fresh_table (pawn_key levered)
                   = slot_of fresh_table (pawn_key initial))
    by (vm_compute; reflexivity).
  split; [exact fresh_table_not_empty |].
  split; [exact Hkeys | split; [exact Hslots |]].
  apply (probe_collision_evicts levered initial fresh_table
           fresh_table_not_empty Hkeys Hslots).
Defined.

Lemma probe_miss_entry_witness :
  work (probe initial fresh_table) <> []
  /\ work (probe initial [zero_entry]) <> []
  /\ scores (entry (probe initial fresh_table))
     = scores (entry (probe initial [zero_entry])).
Proof.
  assert (H1 : work (probe initial fresh_table) <> []).
  { intros H. vm_compute in H. discriminate H. }
  assert (H2 : work (probe initial [zero_entry]) <> []).
  { intros H. vm_compute in H. discriminate H. }
  split; [exact H1 | split; [exact H2 |]].
  apply (probe_miss_entry initial fresh_table [zero_entry] H1 H2).
Defined.

Lemma evaluate_order_independent_witness :
  (forall c pt, Permutation (rev (pieceList doubled_phalanx c pt))
                            (pieceList doubled_phalanx c pt))
  /\ evaluate (with_piece_lists doubled_phalanx
                 (fun c pt => rev (pieceList doubled_phalanx c pt)))
              WHITE zero_entry
     = evaluate doubled_phalanx WHITE zero_entry.
Proof.
  assert (Hperm : forall c pt,
             Permutation (rev (pieceList doubled_phalanx c pt))
                         (pieceList doubled_phalanx c pt)).
  { intros c pt. destruct c, pt; vm_compute; repeat constructor.
    apply Permutation_sym, (Permutation_rev [SQ_E3; SQ_E4; SQ_D4]). }
  split; [exact Hperm |].
  apply (evaluate_order_independent doubled_phalanx
           (fun c pt => rev (pieceList doubled_phalanx c pt))
           WHITE zero_entry fresh_table Hperm).
Defined.

Lemma evaluate_without_pawns_witness :
  pieces doubled_phalanx BLACK PAWN = 0
  /\ pieceList doubled_phalanx BLACK PAWN = []
  /\ pieceList doubled_phalanx BLACK SHOGI_PAWN = []
  /\ fst (evaluate doubled_phalanx BLACK zero_entry) = SCORE_ZERO.
Proof.
  split; [reflexivity |]. split; [reflexivity |]. split; [reflexivity |].
  apply (evaluate_without_pawns doubled_phalanx BLACK zero_entry
           eq_refl eq_refl eq_refl).
Defined.

Lemma no_enemy_pawns_witness :
  pieces doubled_phalanx (Them WHITE) PAWN = 0
  /\ passed doubled_phalanx WHITE SQ_E4 = true.
Proof.
  split; [reflexivity |].
  apply (no_enemy_pawns doubled_phalanx WHITE SQ_E4 eq_refl).
Defined.

Lemma min_pawn_dist_is_minimum_witness :
  0 <= pieces initial WHITE PAWN
  /\ forallb (fun s => (1 <=? distance SQ_E1 s)
                       && Bool.eqb (Z.testbit (PseudoAttacks WHITE KING SQ_E1) s)
                                   (distance SQ_E1 s =? 1))
             (bb_squares (pieces initial WHITE PAWN)) = true
  /\ 0 <= min_pawn_dist initial WHITE SQ_E1 <= 8.
Proof.
  assert (H0 : 0 <= pieces initial WHITE PAWN) by (vm_compute; discriminate).
  assert (Hgeo : forallb
                   (fun s => (1 <=? distance SQ_E1 s)
                             && Bool.eqb (Z.testbit (PseudoAttacks WHITE KING SQ_E1) s)
                                         (distance SQ_E1 s =? 1))
                   (bb_squares (pieces initial WHITE PAWN)) = true)
    by (vm_compute; reflexivity).
  split; [exact H0 | split; [exact Hgeo |]].
  apply (min_pawn_dist_is_minimum initial WHITE SQ_E1 H0 Hgeo).
Defined.

Lemma probe_other_slots_commute_witness :
  slot_of fresh_table (pawn_key levered)
  <> slot_of fresh_table (pawn_key doubled_phalanx)
  /\ table (probe doubled_phalanx (table (probe levered fresh_table)))
     = table (probe levered (table (probe doubled_phalanx fresh_table))).
Proof.
  assert (Hne : slot_of fresh_table (pawn_key levered)
                <> slot_of fresh_table (pawn_key doubled_phalanx)).
  { intros H. vm_compute in H. discriminate H. }
  split; [exact Hne |].
  apply (probe_other_slots_commute levered doubled_phalanx fresh_table Hne).
Defined.

Lemma shelter_window_witness :
  2 <= max_file initial
  /\ 0 <= file_of SQ_E1 <= max_file initial
  /\ In (file_of SQ_E1) (shelter_files initial SQ_E1).
Proof.
  assert (Hboard : 2 <= max_file initial) by (vm_compute; discriminate).
  assert (Hfile : 0 <= file_of SQ_E1 <= max_file initial)
    by (split; vm_compute; discriminate).
  split; [exact Hboard | split; [exact Hfile |]].
  apply (shelter_window initial SQ_E1 Hboard Hfile).
Defined.

End OnTheBoardAgain.
